(** * fix_react_hooks.py: a shallow embedding and its verified properties

    The script reads one file as text, inserts [, useCallback}] behind two
    shapes of React import (unless the text already mentions [useCallback]),
    writes the file back when the text changed and exits 0 (patched) or 1.

    Python values are embedded as follows.
    - [str] is a list of Unicode code points ([N]).
    - [needle in s], [re.sub], [open], [read], [write], [print] and
      [sys.exit] are given as executable definitions of the CPython behaviour
      the script relies on (text mode with universal newlines, the
      backtracking matcher of [re], [SystemExit]).
    - the process is a function on a [world]: file system, standard output,
      a log of the file operations attempted, and [os.linesep].
    Outside the model: the codec (a file is the text its bytes decode to),
    failures of [write] after a successful [open], and a standard output that
    cannot encode a character. *)

From Stdlib Require Import String Ascii.
From stdpp Require Import base option list gmap.

Local Open Scope N_scope.
Local Open Scope list_scope.

(** ** Python strings *)

Module PyStr.

(** [char] is a code point and [str] a sequence of them. *)
Abbreviation char := N (only parsing).
Abbreviation str := (list N) (only parsing).

(** A source literal made of ASCII characters. *)
Definition py (s : string) : str :=
  List.map N_of_ascii (list_ascii_of_string s).

(** Characters that cannot be typed inside a literal of this file. *)
Definition LF : char := 10.
Definition CR : char := 13.
Definition dquote : str := [34].
Definition check_mark : str := [10003].

(** [str.isspace] for one code point (CPython's [_PyUnicode_IsWhitespace]);
    it is the class that [\s] denotes in a [str] pattern. *)
Definition is_space (c : char) : bool :=
  ((9 <=? c) && (c <=? 13)) || ((28 <=? c) && (c <=? 32))
  || (c =? 133) || (c =? 160) || (c =? 5760)
  || ((8192 <=? c) && (c <=? 8202))
  || (c =? 8232) || (c =? 8233) || (c =? 8239) || (c =? 8287)
  || (c =? 12288).

(** [s.startswith(p)] *)
Fixpoint startswith (p s : str) : bool :=
  match p, s with
  | [], _ => true
  | _ :: _, [] => false
  | a :: p', b :: s' => (a =? b) && startswith p' s'
  end.

(** [needle in s] : plain substring search. *)
Fixpoint contains (needle s : str) : bool :=
  startswith needle s ||
  match s with
  | [] => false
  | _ :: s' => contains needle s'
  end.

End PyStr.
Export PyStr.

(** ** The fragment of [re] used by the script *)

Module Re.

(** One-character matchers. *)
Inductive atom :=
| Chr (c : char)      (* a literal character, escaped or not *)
| Space.              (* \s *)

(** Pattern items; the quantifiers are the greedy ones. *)
Inductive item :=
| One (a : atom)
| Star (a : atom)     (* a* *)
| Plus (a : atom).    (* a+ *)

(** A pattern is a sequence of items.  Both patterns of the script are one
    capture group around the whole sequence, so group 1 is the match. *)
Definition regex := list item.

Definition lit (s : string) : regex := List.map (fun c => One (Chr c)) (py s).

Definition atom_ok (a : atom) (c : char) : bool :=
  match a with
  | Chr d => d =? c
  | Space => is_space c
  end.

(** Greedy repetition with backtracking: take as many characters as
    possible, and give one back each time the continuation [k] fails. *)
Definition greedy (a : atom) (k : str -> option nat) : str -> option nat :=
  fix go (s : str) : option nat :=
    match s with
    | c :: s' =>
        if atom_ok a c then
          match go s' with
          | Some n => Some (S n)
          | None => k s
          end
        else k s
    | [] => k s
    end.

(** [re_match r s] is the length of the match of [r] at the start of [s],
    as the backtracking engine finds it ([pattern.match]). *)
Fixpoint re_match (r : regex) (s : str) : option nat :=
  match r with
  | [] => Some 0%nat
  | One a :: r' =>
      match s with
      | c :: s' => if atom_ok a c then S <$> re_match r' s' else None
      | [] => None
      end
  | Star a :: r' => greedy a (re_match r') s
  | Plus a :: r' =>
      match s with
      | c :: s' => if atom_ok a c then S <$> greedy a (re_match r') s' else None
      | [] => None
      end
  end.

(** [re.search(r, s) is not None] *)
Fixpoint re_search (r : regex) (s : str) : bool :=
  match re_match r s with
  | Some _ => true
  | None => match s with [] => false | _ :: s' => re_search r s' end
  end.

(** Replacement templates: literal text and the reference [\1]. *)
Inductive tpart :=
| TLit (s : str)
| TGroup1.

Definition template := list tpart.

Definition expand (t : template) (group1 : str) : str :=
  List.concat (List.map (fun p => match p with TLit s => s | TGroup1 => group1 end) t).

(** The scan of [re.sub]: [skip] counts the characters of the current match
    that are still to be passed over (they were replaced as a whole). *)
Fixpoint sub_scan (r : regex) (t : template) (skip : nat) (s : str) : str :=
  match s with
  | [] =>
      match skip, re_match r [] with
      | O, Some _ => expand t []
      | _, _ => []
      end
  | c :: s' =>
      match skip with
      | S k => sub_scan r t k s'
      | O =>
          match re_match r s with
          | Some (S k) => expand t (take (S k) s) ++ sub_scan r t k s'
          | Some O => expand t [] ++ c :: sub_scan r t O s'
          | None => c :: sub_scan r t O s'
          end
      end
  end.

(** [re.sub(r, t, s)] : every non-overlapping match, leftmost first. *)
Definition re_sub (r : regex) (t : template) (s : str) : str :=
  sub_scan r t 0 s.

End Re.
Export Re.

(** ** The process and its environment *)

Module Os.

(** Text files are opened with [newline=None]: reading turns [\r\n] and a
    lone [\r] into [\n]; writing turns [\n] into [os.linesep]. *)
Fixpoint universal_newlines (s : str) : str :=
  match s with
  | [] => []
  | c :: s' =>
      if c =? CR then
        match s' with
        | d :: s'' =>
            if d =? LF then LF :: universal_newlines s''
            else LF :: universal_newlines s'
        | [] => [LF]
        end
      else c :: universal_newlines s'
  end.

Inductive platform := Posix | Windows.

Definition linesep (p : platform) : str :=
  match p with
  | Posix => [LF]
  | Windows => [CR; LF]
  end.

Fixpoint newlines_out (p : platform) (s : str) : str :=
  match s with
  | [] => []
  | c :: s' =>
      (if c =? LF then linesep p else [c]) ++ newlines_out p s'
  end.

(** A file: the characters its bytes decode to under the default codec
    ([None] when they do not decode), and what the process may do to it. *)
Record file := File {
  f_text : option str;
  f_readable : bool;
  f_writable : bool
}.

Inductive mode := ModeR | ModeW.

(** File operations the process attempts, in order. *)
Inductive event :=
| EvOpen (path : str) (m : mode)
| EvRead (path : str)
| EvWrite (path : str) (data : str).

Record world := World {
  fs : gmap str file;
  stdout : list str;          (* one entry per [print] *)
  oplog : list event;
  os_platform : platform
}.

Inductive exn :=
| FileNotFoundError
| PermissionError
| UnicodeDecodeError
| OSError
| IndexError
| SystemExit (code : Z).

Inductive result (A : Type) :=
| Ret (a : A)
| Raise (e : exn).
Arguments Ret {A} a.
Arguments Raise {A} e.

(** Statements: they run in a world and return or raise. *)
Definition Py (A : Type) : Type := world -> result A * world.

Definition ret {A} (a : A) : Py A := fun w => (Ret a, w).

Definition bind {A B} (m : Py A) (k : A -> Py B) : Py B :=
  fun w =>
    match m w with
    | (Ret a, w') => k a w'
    | (Raise e, w') => (Raise e, w')
    end.

Definition raise {A} (e : exn) : Py A := fun w => (Raise e, w).

Declare Scope py_scope.
Delimit Scope py_scope with py.
Notation "x <- m ;; k" := (bind m (fun x => k))
  (at level 100, m at next level, right associativity) : py_scope.
Notation "m ;;; k" := (bind m (fun _ => k))
  (at level 100, right associativity) : py_scope.

Definition set_fs (f : gmap str file -> gmap str file) (w : world) : world :=
  World (f (fs w)) (stdout w) (oplog w) (os_platform w).

Definition log (e : event) (w : world) : world :=
  World (fs w) (stdout w) (oplog w ++ [e]) (os_platform w).

(** [print(line)] *)
Definition print (line : str) : Py unit :=
  fun w => (Ret tt, World (fs w) (stdout w ++ [line]) (oplog w) (os_platform w)).

(** [sys.exit(code)] *)
Definition sys_exit {A} (code : Z) : Py A := raise (SystemExit code).

(** [open(path, mode)]; the handle is the path.  Mode ['w'] truncates the
    file, or creates it. *)
Definition open_ (path : str) (m : mode) : Py str :=
  fun w =>
    let w1 := log (EvOpen path m) w in
    match fs w !! path, m with
    | None, ModeR => (Raise FileNotFoundError, w1)
    | None, ModeW => (Ret path, set_fs <[path := File (Some []) true true]> w1)
    | Some f, ModeR =>
        if f_readable f then (Ret path, w1) else (Raise PermissionError, w1)
    | Some f, ModeW =>
        if f_writable f
        then (Ret path,
              set_fs <[path := File (Some []) (f_readable f) true]> w1)
        else (Raise PermissionError, w1)
    end.

(** [f.read()] *)
Definition f_read (h : str) : Py str :=
  fun w =>
    let w1 := log (EvRead h) w in
    match fs w !! h with
    | Some f =>
        match f_text f with
        | Some t => (Ret (universal_newlines t), w1)
        | None => (Raise UnicodeDecodeError, w1)
        end
    | None => (Raise OSError, w1)
    end.

(** [f.write(s)] *)
Definition f_write (h : str) (s : str) : Py unit :=
  fun w =>
    let out := newlines_out (os_platform w) s in
    let w1 := log (EvWrite h out) w in
    match fs w !! h with
    | Some f =>
        (Ret tt,
         set_fs <[h := File (Some (default [] (f_text f) ++ out))
                            (f_readable f) (f_writable f)]> w1)
    | None => (Raise OSError, w1)
    end.

(** Exit status of the interpreter: [SystemExit(code)] gives [code], any
    other uncaught exception prints a traceback and gives 1. *)
Definition exit_status {A} (r : result A) : Z :=
  match r with
  | Ret _ => 0
  | Raise (SystemExit code) => code
  | Raise _ => 1
  end.

End Os.
Export Os.

(** ** The script *)

Module FixReactHooks.

Local Open Scope py_scope.

Definition useCallback : str := py "useCallback".

(** r'(import\s+\{\s*useEffect,\s*useState\s*\})' *)
Definition pattern1 : regex :=
  lit "import" ++ [Plus Space] ++ lit "{" ++ [Star Space]
    ++ lit "useEffect," ++ [Star Space] ++ lit "useState" ++ [Star Space]
    ++ lit "}".

(** r'(import\s+\{\s*useState,\s*useEffect\s*\})' *)
Definition pattern2 : regex :=
  lit "import" ++ [Plus Space] ++ lit "{" ++ [Star Space]
    ++ lit "useState," ++ [Star Space] ++ lit "useEffect" ++ [Star Space]
    ++ lit "}".

Definition inserted : str := py ", useCallback}".

(** r'\1, useCallback}' *)
Definition repl : template := [TGroup1; TLit inserted].

(** Step 1: add useCallback to imports if missing.  The [if] statement of
    the script and its two assignments, as a function of [content]. *)
Definition step1 (content : str) : str :=
  if negb (contains useCallback content) then
    let content := re_sub pattern1 repl content in
    let content := re_sub pattern2 repl content in
    content
  else content.

(** Step 2 only builds this list of (pattern, replacement) source texts. *)
Definition patterns : list (str * str) :=
  [ (py "(  useEffect\(\(\) => \{\n    )(\w+)\(\);(\n  \}, \[)([^\]]+)(\]\);)\n\n(  const \2 = async \(\) => \{)",
     py "\6 = useCallback(async () => {");
    (py "(  const )(\w+)( = async \(\) => \{[^}]+\}[^}]+\};)\n\n  useEffect\(\(\) => \{\n    \2\(\);\n  \}, \[([^\]]+)\]\);",
     py "\1\2 = useCallback(async () => {\n    // function body\n  }, [\4]);\n\n  useEffect(() => {\n    \2();\n  }, [\2]);") ].

Definition fix_react_hook_dependencies (filepath : str) : Py bool :=
  content <- (f <- open_ filepath ModeR ;; f_read f) ;;
  let original_content := content in
  let content := step1 content in
  let patterns := patterns in
  print (py "File: " ++ filepath) ;;;
  (if bool_decide (content <> original_content) then
     (f <- open_ filepath ModeW ;; f_write f content) ;;;
     print (py "  " ++ check_mark ++ py " Fixed imports")
   else
     print (py "  - No import changes needed")) ;;;
  ret (bool_decide (content <> original_content)).

Definition usage : str := py "Usage: fix_react_hooks.py <file>".

(** The [__main__] block, with [sys.argv] as argument. *)
Definition main (argv : list str) : Py unit :=
  (if bool_decide (length argv < 2)%nat then
     print usage ;;; sys_exit 1
   else ret tt) ;;;
  filepath <- match argv !! 1%nat with
              | Some a => ret a
              | None => raise IndexError
              end ;;
  fixed <- fix_react_hook_dependencies filepath ;;
  sys_exit (if fixed then 0 else 1)%Z.

(** One run of the interpreter on the script: exit status and final world. *)
Definition run (argv : list str) (w : world) : Z * world :=
  let '(r, w') := main argv w in (exit_status r, w').

End FixReactHooks.
Export FixReactHooks.

(** * Vocabulary of the statements *)

(** Patterns that start with a single character (they match no empty text). *)
Definition starts_with_char (r : regex) : Prop :=
  match r with One _ :: _ => True | _ => False end.

(** [patched r ins s o]: [o] is [s] with [ins] spliced in behind every
    leftmost non-overlapping match of [r]; nothing else differs. *)
Inductive patched (r : regex) (ins : str) : str -> str -> Prop :=
| patched_nil : patched r ins [] []
| patched_keep c s o :
    re_match r (c :: s) = None ->
    patched r ins s o ->
    patched r ins (c :: s) (c :: o)
| patched_match m s o :
    m <> [] ->
    re_match r (m ++ s) = Some (length m) ->
    patched r ins s o ->
    patched r ins (m ++ s) (m ++ ins ++ o).

(** Runs of white space, and text that starts with another character. *)
Definition spaces (ws : str) : Prop := Forall (fun c => is_space c = true) ws.

Definition nonspace_head (s : str) : Prop :=
  match s with
  | c :: _ => is_space c = false
  | [] => False
  end.

(** The texts that pattern 1 and pattern 2 are written for. *)
Definition shape1 (ws1 ws2 ws3 ws4 : str) : str :=
  py "import" ++ ws1 ++ py "{" ++ ws2 ++ py "useEffect," ++ ws3
    ++ py "useState" ++ ws4 ++ py "}".

Definition shape2 (ws1 ws2 ws3 ws4 : str) : str :=
  py "import" ++ ws1 ++ py "{" ++ ws2 ++ py "useState," ++ ws3
    ++ py "useEffect" ++ ws4 ++ py "}".

(** The same texts with white space [b] between the first name and its
    comma. *)
Definition spaced1 (ws1 ws2 b ws3 ws4 : str) : str :=
  py "import" ++ ws1 ++ py "{" ++ ws2 ++ py "useEffect" ++ b ++ py ","
    ++ ws3 ++ py "useState" ++ ws4 ++ py "}".

Definition spaced2 (ws1 ws2 b ws3 ws4 : str) : str :=
  py "import" ++ ws1 ++ py "{" ++ ws2 ++ py "useState" ++ b ++ py ","
    ++ ws3 ++ py "useEffect" ++ ws4 ++ py "}".

(** [only_imports_patched s o]: [o] is [s], or [s] with [inserted] spliced
    in behind the matches of pattern 1 and then of pattern 2; every other
    character is as it was. *)
Definition only_imports_patched (s o : str) : Prop :=
  o = s \/
  exists mid, patched pattern1 inserted s mid /\ patched pattern2 inserted mid o.

(** File operations that write, and those that change the file at all
    (opening with mode ['w'] truncates). *)
Definition is_write (e : event) : bool :=
  match e with
  | EvWrite _ _ => true
  | _ => false
  end.

Definition modifies (e : event) : bool :=
  match e with
  | EvWrite _ _ | EvOpen _ ModeW => true
  | _ => false
  end.

(** The run was given a file that it could read and whose content step 1
    changes. *)
Definition content_differs (argv : list str) (w : world) : Prop :=
  exists path f d,
    argv !! 1%nat = Some path /\ fs w !! path = Some f /\
    f_readable f = true /\ f_text f = Some d /\
    step1 (universal_newlines d) <> universal_newlines d.

(** Opening or reading [path] fails: no such file, no permission, or bytes
    that do not decode. *)
Definition read_fails (w : world) (path : str) : Prop :=
  match fs w !! path with
  | None => True
  | Some f => f_readable f = false \/ f_text f = None
  end.

(** The two imports of the specification, and their patched forms. *)
Definition import_effect_state : str :=
  py "import { useEffect, useState } from " ++ dquote ++ py "react" ++ dquote
    ++ py ";".

Definition patched_effect_state : str :=
  py "import { useEffect, useState }, useCallback} from " ++ dquote
    ++ py "react" ++ dquote ++ py ";".

Definition import_state_effect : str :=
  py "import { useState, useEffect } from " ++ dquote ++ py "react" ++ dquote
    ++ py ";".

Definition patched_state_effect : str :=
  py "import { useState, useEffect }, useCallback} from " ++ dquote
    ++ py "react" ++ dquote ++ py ";".

(** Two further inputs: the first import ending in [\r\n], and an import
    with a blank before the comma. *)
Definition crlf_import : str :=
  py "import { useEffect, useState }" ++ [CR; LF].

Definition spaced_comma_import : str := py "import { useEffect , useState }".

(** Variants of the first import: without blanks, and over several lines. *)
Definition compact_import : str := py "import {useEffect,useState}".

Definition multiline_import : str :=
  py "import {" ++ [LF] ++ py "  useEffect," ++ [LF] ++ py "  useState"
    ++ [LF] ++ py "}".

(** A world with one file, for the examples. *)
Definition demo_prog : str := py "fix_react_hooks.py".
Definition demo_path : str := py "App.tsx".

Definition demo_world (p : platform) (f : file) : world :=
  World {[ demo_path := f ]} [] [] p.

(** Text without carriage returns. *)
Definition no_cr (s : str) : Prop := Forall (fun c => c <> CR) s.

(** The lines the script prints. *)
Definition line_file (p : str) : str := py "File: " ++ p.
Definition line_fixed : str := py "  " ++ check_mark ++ py " Fixed imports".
Definition line_unchanged : str := py "  - No import changes needed".

(** The cases of a run on a file argument, as one inductive view. *)
Inductive run_case (path : str) (w : world) : result unit -> world -> Prop :=
| case_open_fails e :
    (fs w !! path = None /\ e = FileNotFoundError) \/
    (exists f, fs w !! path = Some f /\ f_readable f = false
               /\ e = PermissionError) ->
    run_case path w (Raise e)
      (World (fs w) (stdout w) (oplog w ++ [EvOpen path ModeR])
         (os_platform w))
| case_read_fails f :
    fs w !! path = Some f -> f_readable f = true -> f_text f = None ->
    run_case path w (Raise UnicodeDecodeError)
      (World (fs w) (stdout w)
         (oplog w ++ [EvOpen path ModeR; EvRead path]) (os_platform w))
| case_unchanged f d :
    fs w !! path = Some f -> f_readable f = true -> f_text f = Some d ->
    step1 (universal_newlines d) = universal_newlines d ->
    run_case path w (Raise (SystemExit 1))
      (World (fs w) (stdout w ++ [line_file path; line_unchanged])
         (oplog w ++ [EvOpen path ModeR; EvRead path]) (os_platform w))
| case_write_fails f d :
    fs w !! path = Some f -> f_readable f = true -> f_text f = Some d ->
    step1 (universal_newlines d) <> universal_newlines d ->
    f_writable f = false ->
    run_case path w (Raise PermissionError)
      (World (fs w) (stdout w ++ [line_file path])
         (oplog w ++ [EvOpen path ModeR; EvRead path; EvOpen path ModeW])
         (os_platform w))
| case_patched f d :
    fs w !! path = Some f -> f_readable f = true -> f_text f = Some d ->
    step1 (universal_newlines d) <> universal_newlines d ->
    f_writable f = true ->
    run_case path w (Raise (SystemExit 0))
      (World (<[path := File (Some (newlines_out (os_platform w)
                                      (step1 (universal_newlines d))))
                          true true]> (fs w))
         (stdout w ++ [line_file path; line_fixed])
         (oplog w ++ [EvOpen path ModeR; EvRead path; EvOpen path ModeW;
                      EvWrite path (newlines_out (os_platform w)
                                      (step1 (universal_newlines d)))])
         (os_platform w)).

(** * Properties *)

(** ** Substring search *)

Section SubstringFacts.

Implicit Types (p s needle : str) (c : char).

Lemma startswith_spec p s :
  startswith p s = true <-> exists t, s = p ++ t.
Proof.
  revert s; induction p as [|a p IH]; intros s; simpl.
  - split; eauto.
  - destruct s as [|b s].
    + split; [discriminate | intros [t Ht]; discriminate].
    + rewrite andb_true_iff, N.eqb_eq, IH. split.
      * intros [-> [t ->]]. by exists t.
      * intros [t Ht]. injection Ht as -> ->. eauto.
Qed.

Lemma contains_spec needle s :
  contains needle s = true <-> exists a b, s = a ++ needle ++ b.
Proof.
  induction s as [|c s IH]; simpl; rewrite orb_true_iff, startswith_spec.
  - split.
    + intros [[t Ht]|?]; [|discriminate]. exists [], t. done.
    + intros (a & b & Hab). left.
      destruct a; [by exists b|discriminate].
  - rewrite IH. split.
    + intros [[t Ht]|(a & b & ->)].
      * exists [], t. done.
      * by exists (c :: a), b.
    + intros (a & b & Hab). destruct a as [|c' a].
      * left. by exists b.
      * right. injection Hab as -> ->. eauto.
Qed.

Lemma contains_app_r needle a s :
  contains needle s = true -> contains needle (a ++ s) = true.
Proof.
  rewrite !contains_spec. intros (x & y & ->).
  exists (a ++ x), y. by rewrite <- app_assoc.
Qed.

Lemma contains_cons needle c s :
  contains needle s = true -> contains needle (c :: s) = true.
Proof. apply (contains_app_r needle [c]). Qed.

End SubstringFacts.

(** ** The matcher and [re.sub] *)

Section ReFacts.

Implicit Types (r : regex) (s o m ins : str) (c : char).

Lemma greedy_le a (k : str -> option nat) :
  (forall s n, k s = Some n -> (n <= length s)%nat) ->
  forall s n, greedy a k s = Some n -> (n <= length s)%nat.
Proof.
  intros Hk s; induction s as [|c s IH]; intros n; simpl.
  - apply (Hk []).
  - destruct (atom_ok a c); [|apply (Hk (c :: s))].
    destruct (greedy a k s) as [j|] eqn:E.
    + intros [= <-]. specialize (IH _ eq_refl). lia.
    + apply (Hk (c :: s)).
Qed.

(** A match never extends beyond the text. *)
Lemma re_match_le r s n : re_match r s = Some n -> (n <= length s)%nat.
Proof.
  revert s n; induction r as [|[a|a|a] r IH]; intros s n; simpl.
  - intros [= <-]. lia.
  - destruct s as [|c s]; [done|]. destruct (atom_ok a c); [|done].
    destruct (re_match r s) as [j|] eqn:E; [|done].
    intros [= <-]. apply IH in E. simpl. lia.
  - by apply greedy_le.
  - destruct s as [|c s]; [done|]. destruct (atom_ok a c); [|done].
    destruct (greedy a (re_match r) s) as [j|] eqn:E; [|done].
    intros [= <-]. apply greedy_le in E; [simpl; lia | done].
Qed.

Lemma re_match_nonempty r s :
  starts_with_char r -> re_match r s <> Some 0%nat.
Proof.
  destruct r as [|[a|a|a] r]; simpl; try done. intros _.
  destruct s as [|c s]; [done|]. destruct (atom_ok a c); [|done].
  by destruct (re_match r s).
Qed.

Lemma sub_scan_skip r t k s :
  (k <= length s)%nat -> sub_scan r t k s = sub_scan r t 0 (drop k s).
Proof.
  revert k; induction s as [|c s IH]; intros [|k] Hk; simpl in *;
    try done; try lia.
  apply IH. lia.
Qed.

Lemma expand_group_lit m ins : expand [TGroup1; TLit ins] m = m ++ ins.
Proof. unfold expand; simpl. by rewrite app_nil_r. Qed.

Lemma re_sub_nil r t : starts_with_char r -> re_sub r t [] = [].
Proof.
  intros Hr. unfold re_sub; simpl.
  destruct r as [|[]]; done.
Qed.

Lemma re_sub_nomatch r t c s :
  re_match r (c :: s) = None -> re_sub r t (c :: s) = c :: re_sub r t s.
Proof. intros H. unfold re_sub. simpl sub_scan at 1. by rewrite H. Qed.

Lemma re_sub_match r t c s k :
  re_match r (c :: s) = Some (S k) ->
  re_sub r t (c :: s)
  = expand t (take (S k) (c :: s)) ++ re_sub r t (drop (S k) (c :: s)).
Proof.
  intros H. unfold re_sub. simpl sub_scan at 1. rewrite H.
  apply re_match_le in H. simpl in H.
  rewrite (sub_scan_skip r t k s) by lia. done.
Qed.

Lemma re_sub_patched r ins s :
  starts_with_char r ->
  patched r ins s (re_sub r [TGroup1; TLit ins] s).
Proof.
  intros Hr.
  induction s as [s IH] using (induction_ltof1 _ (@length char)).
  unfold ltof in IH. destruct s as [|c s].
  - rewrite re_sub_nil by done. constructor.
  - destruct (re_match r (c :: s)) as [[|k]|] eqn:E.
    + by apply re_match_nonempty in E.
    + rewrite (re_sub_match _ _ _ _ _ E).
      pose proof (re_match_le _ _ _ E) as Hle.
      assert (Hp : patched r ins
                     (take (S k) (c :: s) ++ drop (S k) (c :: s))
                     (take (S k) (c :: s) ++ ins
                        ++ re_sub r [TGroup1; TLit ins] (drop (S k) (c :: s)))).
      { apply patched_match.
        - done.
        - rewrite take_drop, length_take, E. f_equal. lia.
        - apply IH. rewrite length_drop. simpl. lia. }
      rewrite take_drop in Hp. by rewrite expand_group_lit, <- app_assoc.
    + rewrite (re_sub_nomatch _ _ _ _ E). apply patched_keep; [done|].
      apply IH. simpl. lia.
Qed.

Lemma patched_unchanged_or_inserted r ins s o :
  patched r ins s o -> o = s \/ exists a b, o = a ++ ins ++ b.
Proof.
  induction 1 as [|c s o _ _ [->|(a & b & ->)]|m s o _ _ _ _].
  - by left.
  - by left.
  - right. by exists (c :: a), b.
  - right. by exists m, o.
Qed.

Lemma patched_no_match r ins s o :
  patched r ins s o -> re_search r s = false -> o = s.
Proof.
  induction 1 as [|c s o Hc _ IH|m s o Hne Hm _ _]; intros Hs.
  - done.
  - simpl in Hs. rewrite Hc in Hs. by rewrite IH.
  - destruct m as [|c m]; [done|].
    change ((c :: m) ++ s) with (c :: (m ++ s)) in *.
    cbn [re_search] in Hs. by rewrite Hm in Hs.
Qed.

Lemma patched_Forall (P : char -> Prop) r ins s o :
  patched r ins s o -> Forall P ins -> Forall P s -> Forall P o.
Proof.
  intros H Hins; induction H as [|c s o _ _ IH|m s o _ _ _ IH]; intros Hs.
  - done.
  - apply Forall_cons in Hs as [? ?]. constructor; auto.
  - apply Forall_app in Hs as [? ?]. rewrite !Forall_app. auto.
Qed.

(** Every character of the input is still in the output. *)
Lemma patched_elem_of r ins s o c :
  patched r ins s o -> c ∈ s -> c ∈ o.
Proof.
  induction 1 as [|d s o _ _ IH|m s o _ _ _ IH].
  - done.
  - rewrite !elem_of_cons. intros [->|?]; auto.
  - rewrite !elem_of_app. intros [?|?]; auto.
Qed.

End ReFacts.

(** ** Newline translation of text files *)

Section NewlineFacts.

Implicit Types (s t a b : str) (c : char).

Lemma universal_newlines_no_cr s : no_cr (universal_newlines s).
Proof.
  unfold no_cr.
  induction s as [s IH] using (induction_ltof1 _ (@length char)).
  unfold ltof in IH. destruct s as [|c s]; simpl; [constructor|].
  destruct (N.eqb_spec c CR) as [->|Hc].
  - destruct s as [|d s]; [by repeat constructor|].
    destruct (d =? LF); (constructor; [done | apply IH; simpl; lia]).
  - constructor; [done | apply IH; simpl; lia].
Qed.

Lemma universal_newlines_id s : no_cr s -> universal_newlines s = s.
Proof.
  induction 1 as [|c s Hc _ IH]; simpl; [done|].
  apply N.eqb_neq in Hc. by rewrite Hc, IH.
Qed.

(** What [write] stores is read back as the text that was written. *)
Lemma universal_newlines_out p t :
  no_cr t -> universal_newlines (newlines_out p t) = t.
Proof.
  induction 1 as [|c t Hc _ IH]; simpl; [done|].
  destruct (N.eqb_spec c LF) as [->|Hlf].
  - destruct p; simpl; by rewrite IH.
  - simpl. apply N.eqb_neq in Hc. by rewrite Hc, IH.
Qed.

Lemma universal_newlines_cons c s :
  c <> CR -> universal_newlines (c :: s) = c :: universal_newlines s.
Proof. intros Hc; simpl. apply N.eqb_neq in Hc. by rewrite Hc. Qed.

Lemma universal_newlines_crlf s :
  universal_newlines (CR :: LF :: s) = LF :: universal_newlines s.
Proof. done. Qed.

Lemma universal_newlines_cr d s :
  d <> LF ->
  universal_newlines (CR :: d :: s) = LF :: universal_newlines (d :: s).
Proof.
  intros Hd. apply N.eqb_neq in Hd.
  change (universal_newlines (CR :: d :: s))
    with (if d =? LF then LF :: universal_newlines s
          else LF :: universal_newlines (d :: s)).
  by rewrite Hd.
Qed.

Lemma universal_newlines_app a b :
  head b <> Some LF ->
  universal_newlines (a ++ b) = universal_newlines a ++ universal_newlines b.
Proof.
  intros Hb.
  induction a as [a IH] using (induction_ltof1 _ (@length char)).
  unfold ltof in IH. destruct a as [|c a]; [done|].
  destruct (N.eqb_spec c CR) as [->|Hc].
  - destruct a as [|d a].
    + destruct b as [|d b]; [done|].
      assert (d <> LF) by (intros ->; by destruct Hb).
      change ([CR] ++ d :: b) with (CR :: d :: b).
      by rewrite universal_newlines_cr.
    + change ((CR :: d :: a) ++ b) with (CR :: d :: (a ++ b)).
      destruct (N.eqb_spec d LF) as [->|Hd].
      * rewrite !universal_newlines_crlf, IH by (simpl; lia). done.
      * rewrite !universal_newlines_cr by done.
        change (d :: a ++ b) with ((d :: a) ++ b).
        rewrite IH by (simpl; lia). done.
  - change ((c :: a) ++ b) with (c :: (a ++ b)).
    rewrite !universal_newlines_cons, IH by (done || simpl; lia). done.
Qed.

(** Reading neither hides nor creates the name that step 1 looks for. *)
Lemma universal_newlines_contains s :
  contains useCallback s = true ->
  contains useCallback (universal_newlines s) = true.
Proof.
  rewrite !contains_spec. intros (a & b & ->).
  exists (universal_newlines a), (universal_newlines b).
  rewrite universal_newlines_app by done. f_equal.
Qed.

End NewlineFacts.

(** ** What one run does, case by case *)

Section MainFacts.

Variables (prog path : str) (rest : list str).
Variable w : world.

Let argv := prog :: path :: rest.

Ltac main_steps :=
  unfold main, fix_react_hook_dependencies, bind, ret, raise, sys_exit,
    open_, f_read, f_write, print, log, set_fs; subst argv;
  rewrite bool_decide_eq_false_2 by (simpl; lia);
  cbn [lookup list_lookup fs stdout oplog os_platform].

Lemma main_missing :
  fs w !! path = None ->
  main argv w
  = (Raise FileNotFoundError,
     World (fs w) (stdout w) (oplog w ++ [EvOpen path ModeR])
       (os_platform w)).
Proof. intros H. main_steps. by rewrite H. Qed.

Lemma main_unreadable f :
  fs w !! path = Some f -> f_readable f = false ->
  main argv w
  = (Raise PermissionError,
     World (fs w) (stdout w) (oplog w ++ [EvOpen path ModeR])
       (os_platform w)).
Proof. intros H Hr. main_steps. by rewrite H, Hr. Qed.

Lemma main_undecodable f :
  fs w !! path = Some f -> f_readable f = true -> f_text f = None ->
  main argv w
  = (Raise UnicodeDecodeError,
     World (fs w) (stdout w)
       (oplog w ++ [EvOpen path ModeR; EvRead path]) (os_platform w)).
Proof.
  intros H Hr Ht. main_steps. rewrite H, Hr. cbn. rewrite H, Ht. cbn.
  by rewrite <- app_assoc.
Qed.

Lemma main_unchanged f d :
  fs w !! path = Some f -> f_readable f = true -> f_text f = Some d ->
  step1 (universal_newlines d) = universal_newlines d ->
  main argv w
  = (Raise (SystemExit 1),
     World (fs w) (stdout w ++ [line_file path; line_unchanged])
       (oplog w ++ [EvOpen path ModeR; EvRead path]) (os_platform w)).
Proof.
  intros H Hr Ht Hs. main_steps. rewrite H, Hr. cbn. rewrite H, Ht. cbn.
  rewrite bool_decide_eq_false_2 by (by intros ?). cbn.
  by rewrite <- !app_assoc.
Qed.

Lemma main_unwritable f d :
  fs w !! path = Some f -> f_readable f = true -> f_text f = Some d ->
  step1 (universal_newlines d) <> universal_newlines d ->
  f_writable f = false ->
  main argv w
  = (Raise PermissionError,
     World (fs w) (stdout w ++ [line_file path])
       (oplog w ++ [EvOpen path ModeR; EvRead path; EvOpen path ModeW])
       (os_platform w)).
Proof.
  intros H Hr Ht Hs Hw. main_steps. rewrite H, Hr. cbn. rewrite H, Ht. cbn.
  rewrite bool_decide_eq_true_2 by done. cbn. rewrite H, Hw. cbn.
  by rewrite <- !app_assoc.
Qed.

Lemma main_patched f d :
  fs w !! path = Some f -> f_readable f = true -> f_text f = Some d ->
  step1 (universal_newlines d) <> universal_newlines d ->
  f_writable f = true ->
  main argv w
  = (Raise (SystemExit 0),
     World (<[path := File (Some (newlines_out (os_platform w)
                                    (step1 (universal_newlines d))))
                        true true]> (fs w))
       (stdout w ++ [line_file path; line_fixed])
       (oplog w ++ [EvOpen path ModeR; EvRead path; EvOpen path ModeW;
                    EvWrite path (newlines_out (os_platform w)
                                    (step1 (universal_newlines d)))])
       (os_platform w)).
Proof.
  intros H Hr Ht Hs Hw. main_steps. rewrite H, Hr. cbn. rewrite H, Ht. cbn.
  rewrite bool_decide_eq_true_2 by done. cbn. rewrite H, Hw. cbn.
  rewrite lookup_insert_eq. cbn.
  rewrite insert_insert_eq, Hr. by rewrite <- !app_assoc.
Qed.

Lemma main_usage (args : list str) :
  (length args < 2)%nat ->
  main args w
  = (Raise (SystemExit 1),
     World (fs w) (stdout w ++ [usage]) (oplog w) (os_platform w)).
Proof.
  intros H. unfold main, bind, print, sys_exit, raise.
  by rewrite bool_decide_eq_true_2 by done.
Qed.

End MainFacts.

Lemma run_main argv w :
  run argv w = (exit_status (main argv w).1, (main argv w).2).
Proof. unfold run. by destruct (main argv w). Qed.

Lemma main_cases prog path rest w :
  run_case path w (main (prog :: path :: rest) w).1
    (main (prog :: path :: rest) w).2.
Proof.
  destruct (fs w !! path) as [f|] eqn:Hf.
  - destruct (f_readable f) eqn:Hr.
    + destruct (f_text f) as [d|] eqn:Ht.
      * destruct (decide (step1 (universal_newlines d) = universal_newlines d))
          as [Hs|Hs].
        -- rewrite (main_unchanged _ _ _ _ f d) by done. by econstructor.
        -- destruct (f_writable f) eqn:Hw.
           ++ rewrite (main_patched _ _ _ _ f d) by done. by econstructor.
           ++ rewrite (main_unwritable _ _ _ _ f d) by done. by econstructor.
      * rewrite (main_undecodable _ _ _ _ f) by done. by econstructor.
    + rewrite (main_unreadable _ _ _ _ f) by done.
      constructor. right. by exists f.
  - rewrite main_missing by done. constructor. by left.
Qed.

(** ** Matching the import shapes *)

Section ShapeFacts.

Implicit Types (r : regex) (s ws rest l : str) (c : char).

Lemma re_sub_at_match r t m rest :
  m <> [] -> re_match r (m ++ rest) = Some (length m) ->
  re_sub r t (m ++ rest) = expand t m ++ re_sub r t rest.
Proof.
  intros Hm H. destruct m as [|c m]; [done|].
  rewrite <- app_comm_cons in *.
  rewrite (re_sub_match r t c (m ++ rest) (length m) H).
  replace (take (S (length m)) (c :: m ++ rest)) with (c :: m)
    by (simpl; by rewrite take_app_length).
  replace (drop (S (length m)) (c :: m ++ rest)) with rest
    by (simpl; by rewrite drop_app_length).
  done.
Qed.

Lemma re_match_lit_app l r s :
  re_match (List.map (fun c => One (Chr c)) l ++ r) (l ++ s)
  = (fun n => (length l + n)%nat) <$> re_match r s.
Proof.
  induction l as [|c l IH]; simpl.
  - by destruct (re_match r s).
  - rewrite N.eqb_refl, IH. by destruct (re_match r s).
Qed.

Lemma greedy_stop (k : str -> option nat) s :
  nonspace_head s -> greedy Space k s = k s.
Proof. destruct s as [|c s]; [done|]. simpl. by intros ->. Qed.

Lemma greedy_spaces (k : str -> option nat) ws s n :
  spaces ws -> greedy Space k s = Some n ->
  greedy Space k (ws ++ s) = Some (length ws + n)%nat.
Proof.
  intros Hws Hs. induction Hws as [|c ws Hc _ IH]; [done|].
  simpl. by rewrite Hc, IH.
Qed.

Lemma greedy_spaces_none (k : str -> option nat) ws s :
  (forall c v, is_space c = true -> k (c :: v) = None) ->
  spaces ws -> greedy Space k s = None ->
  greedy Space k (ws ++ s) = None.
Proof.
  intros Hk Hws Hs. induction Hws as [|c ws Hc _ IH]; [done|].
  simpl. rewrite Hc, IH. by apply Hk.
Qed.

Lemma re_match_plus_spaces r ws s n :
  ws <> [] -> spaces ws -> greedy Space (re_match r) s = Some n ->
  re_match (Plus Space :: r) (ws ++ s) = Some (length ws + n)%nat.
Proof.
  intros Hne Hws Hs. destruct Hws as [|c ws Hc Hws]; [done|].
  simpl. by rewrite Hc, (greedy_spaces _ _ _ n).
Qed.

Lemma re_match_chr_space x r c v :
  is_space x = false -> is_space c = true ->
  re_match (One (Chr x) :: r) (c :: v) = None.
Proof.
  intros Hx Hc. simpl. destruct (N.eqb_spec x c) as [->|]; [congruence|done].
Qed.

(** The shape [import\s+\{\s*A\s*B\s*\}] for literals [A] (which carries the
    comma) and [B] that do not start with white space. *)
Lemma import_pattern_matches (la lb : str) ws1 ws2 ws3 ws4 rest :
  nonspace_head la -> nonspace_head lb ->
  ws1 <> [] -> spaces ws1 -> spaces ws2 -> spaces ws3 -> spaces ws4 ->
  re_match
    (lit "import" ++ [Plus Space] ++ lit "{" ++ [Star Space]
       ++ List.map (fun c => One (Chr c)) la ++ [Star Space]
       ++ List.map (fun c => One (Chr c)) lb ++ [Star Space] ++ lit "}")
    (py "import" ++ ws1 ++ py "{" ++ ws2 ++ la ++ ws3 ++ lb ++ ws4
       ++ py "}" ++ rest)
  = Some (6 + (length ws1 + (1 + (length ws2 + (length la + (length ws3
            + (length lb + (length ws4 + 1))))))))%nat.
Proof.
  intros Ha Hb Hne H1 H2 H3 H4. unfold lit.
  rewrite re_match_lit_app.
  change ([Plus Space] ++ ?r) with (Plus Space :: r).
  erewrite re_match_plus_spaces; [done|done|done|].
  rewrite greedy_stop by done. rewrite re_match_lit_app.
  change ([Star Space] ++ ?r) with (Star Space :: r). cbn [re_match].
  erewrite greedy_spaces; [done|done|].
  rewrite greedy_stop by (by destruct la). rewrite re_match_lit_app.
  change ([Star Space] ++ ?r) with (Star Space :: r). cbn [re_match].
  erewrite greedy_spaces; [done|done|].
  rewrite greedy_stop by (by destruct lb). rewrite re_match_lit_app.
  change ([Star Space] ++ ?r) with (Star Space :: r). cbn [re_match].
  erewrite greedy_spaces; [done|done|].
  by rewrite greedy_stop by done.
Qed.

End ShapeFacts.

Section CommaFacts.

Implicit Types (r : regex) (s ws rest name : str) (c : char).

(** White space between the first name and its comma defeats the match,
    whatever follows ([44] is the comma). *)
Lemma import_pattern_comma name r ws1 ws2 b rest :
  nonspace_head name -> spaces ws1 -> spaces ws2 -> b <> [] -> spaces b ->
  re_match
    (lit "import" ++ [Plus Space] ++ lit "{" ++ [Star Space]
       ++ List.map (fun c => One (Chr c)) (name ++ [44]) ++ r)
    (py "import" ++ ws1 ++ py "{" ++ ws2 ++ name ++ b ++ rest)
  = None.
Proof.
  intros Hn H1 H2 Hb Hs. unfold lit.
  rewrite re_match_lit_app.
  change ([Plus Space] ++ ?x) with (Plus Space :: x).
  assert (Hname : forall v,
    re_match (List.map (fun c => One (Chr c)) (name ++ [44]) ++ r)
      (name ++ b ++ v) = None).
  { intros v. rewrite map_app, <- app_assoc, re_match_lit_app.
    destruct Hs as [|c b Hc _]; [done|].
    change (List.map (fun c => One (Chr c)) [44] ++ r)
      with (One (Chr 44) :: r).
    rewrite <- app_comm_cons.
    by rewrite (re_match_chr_space 44 r c) by done. }
  assert (Hbrace :
    greedy Space
      (re_match (List.map (fun c => One (Chr c)) (name ++ [44]) ++ r))
      (ws2 ++ name ++ b ++ rest) = None).
  { apply greedy_spaces_none; [|done|].
    - intros c v Hc. destruct name as [|x name]; [done|].
      by apply re_match_chr_space.
    - rewrite greedy_stop by (by destruct name). apply Hname. }
  assert (Himport : forall ws, spaces ws ->
    greedy Space
      (re_match (List.map (fun c => One (Chr c)) (py "{") ++ [Star Space]
         ++ List.map (fun c => One (Chr c)) (name ++ [44]) ++ r))
      (ws ++ py "{" ++ ws2 ++ name ++ b ++ rest) = None).
  { intros ws Hws. apply greedy_spaces_none; [|done|].
    - intros c v Hc. by apply re_match_chr_space.
    - rewrite greedy_stop by done. rewrite re_match_lit_app.
      change ([Star Space] ++ ?x) with (Star Space :: x). cbn [re_match].
      by rewrite Hbrace. }
  destruct H1 as [|c ws1 Hc H1].
  - done.
  - change ((c :: ws1) ++ ?x) with (c :: (ws1 ++ x)).
    cbn [re_match atom_ok]. rewrite Hc.
    change ([Star Space] ++ ?x) with (Star Space :: x) in Himport.
    by rewrite Himport.
Qed.

End CommaFacts.

(** ** Step 1 *)

Section Step1Facts.

Implicit Types (c s : str).

Lemma pattern1_starts : starts_with_char pattern1.
Proof. exact I. Qed.

Lemma pattern2_starts : starts_with_char pattern2.
Proof. exact I. Qed.

Lemma step1_present c : contains useCallback c = true -> step1 c = c.
Proof. intros H. unfold step1. by rewrite H. Qed.

Lemma step1_absent c :
  contains useCallback c = false ->
  step1 c = re_sub pattern2 repl (re_sub pattern1 repl c).
Proof. intros H. unfold step1. by rewrite H. Qed.

Lemma step1_only_imports c : only_imports_patched c (step1 c).
Proof.
  destruct (contains useCallback c) eqn:E.
  - left. by apply step1_present.
  - right. rewrite step1_absent by done.
    exists (re_sub pattern1 repl c).
    split; apply re_sub_patched; [apply pattern1_starts|apply pattern2_starts].
Qed.

Lemma inserted_contains a b :
  contains useCallback (a ++ inserted ++ b) = true.
Proof.
  apply contains_spec. exists (a ++ py ", "), (py "}" ++ b).
  by rewrite <- !app_assoc.
Qed.

(** Whenever step 1 changes the text, the result mentions [useCallback]. *)
Lemma step1_changed_present c :
  step1 c <> c -> contains useCallback (step1 c) = true.
Proof.
  intros Hne. destruct (step1_only_imports c) as [?|(mid & H1 & H2)]; [done|].
  destruct (patched_unchanged_or_inserted _ _ _ _ H2) as [E2|(a & b & ->)].
  - destruct (patched_unchanged_or_inserted _ _ _ _ H1) as [E1|(a & b & E1)].
    + congruence.
    + rewrite E2, E1. apply inserted_contains.
  - apply inserted_contains.
Qed.

Lemma step1_idempotent c : step1 (step1 c) = step1 c.
Proof.
  destruct (decide (step1 c = c)) as [E|Hne]; [by rewrite !E|].
  by apply step1_present, step1_changed_present.
Qed.

Lemma step1_no_match c :
  re_search pattern1 c = false -> re_search pattern2 c = false ->
  step1 c = c.
Proof.
  intros H1 H2. destruct (step1_only_imports c) as [?|(mid & P1 & P2)]; [done|].
  apply patched_no_match in P1; [subst mid|done].
  by apply patched_no_match in P2.
Qed.

Lemma contains_cr_inserted : CR ∉ inserted.
Proof. unfold inserted. rewrite list_elem_of_In. simpl. intuition discriminate. Qed.

Lemma step1_no_cr c : no_cr c -> no_cr (step1 c).
Proof.
  intros Hc. destruct (step1_only_imports c) as [->|(mid & P1 & P2)]; [done|].
  assert (Hins : no_cr inserted).
  { unfold no_cr. apply Forall_forall. intros x Hx ->.
    by apply contains_cr_inserted in Hx. }
  eapply patched_Forall; [exact P2|done|].
  eapply patched_Forall; [exact P1|done|done].
Qed.

(** What the script writes is read back unchanged by the next run. *)
Lemma reread_patched p d :
  universal_newlines (newlines_out p (step1 (universal_newlines d)))
  = step1 (universal_newlines d).
Proof. apply universal_newlines_out, step1_no_cr, universal_newlines_no_cr. Qed.

End Step1Facts.

Section Step1Matches.

Implicit Types (r : regex) (s o ins x pre : str).

Lemma patched_length_le r ins s o :
  patched r ins s o -> (length s <= length o)%nat.
Proof.
  induction 1; simpl; rewrite ?length_app in *; simpl; lia.
Qed.

Lemma patched_match_longer r ins s o :
  patched r ins s o -> re_match r [] = None -> ins <> [] ->
  re_search r s = true -> (length s < length o)%nat.
Proof.
  intros H Hnil Hins.
  induction H as [|c s o Hc _ IH|m s o _ _ Hp _]; intros Hs.
  - simpl in Hs. by rewrite Hnil in Hs.
  - cbn [re_search] in Hs. rewrite Hc in Hs. specialize (IH Hs). simpl. lia.
  - apply patched_length_le in Hp. destruct ins; [done|].
    rewrite !length_app. simpl. lia.
Qed.

Lemma re_search_app r pre s :
  re_search r s = true -> re_search r (pre ++ s) = true.
Proof.
  intros H. induction pre as [|c pre IH]; [done|].
  simpl. by destruct (re_match r (c :: pre ++ s)).
Qed.

Lemma re_search_at_match r s n : re_match r s = Some n -> re_search r s = true.
Proof. intros H. destruct s; simpl; by rewrite H. Qed.

(** Step 1 changes every text that lacks [useCallback] and holds a match. *)
Lemma step1_patches_match x :
  contains useCallback x = false ->
  re_search pattern1 x = true \/ re_search pattern2 x = true ->
  step1 x <> x.
Proof.
  intros Hc Hm E. rewrite step1_absent in E by done.
  pose proof (re_sub_patched pattern1 inserted x pattern1_starts) as P1.
  pose proof (re_sub_patched pattern2 inserted
                (re_sub pattern1 repl x) pattern2_starts) as P2.
  fold repl in P1, P2. rewrite E in P2.
  pose proof (patched_length_le _ _ _ _ P1) as L1.
  pose proof (patched_length_le _ _ _ _ P2) as L2.
  destruct (re_search pattern1 x) eqn:S1.
  - apply patched_match_longer in P1; [lia|done|done|done].
  - destruct Hm as [?|S2]; [done|].
    pose proof (patched_no_match _ _ _ _ P1 S1) as E1. rewrite E1 in P2.
    apply patched_match_longer in P2; [lia|done|done|done].
Qed.

End Step1Matches.

(** * The claims *)

Section Claims.

Implicit Types (prog path : str) (rest argv : list str) (w : world) (f : file).

Lemma step1_effect_state :
  step1 (universal_newlines import_effect_state) = patched_effect_state.
Proof. by vm_compute. Qed.

Lemma step1_state_effect :
  step1 (universal_newlines import_state_effect) = patched_state_effect.
Proof. by vm_compute. Qed.

Lemma newlines_out_one_line p s :
  LF ∉ s -> newlines_out p s = s.
Proof.
  induction s as [|c s IH]; [done|]. rewrite not_elem_of_cons. intros [Hc Hs].
  simpl. apply not_eq_sym, N.eqb_neq in Hc. by rewrite Hc, IH.
Qed.

Lemma patched_effect_state_one_line : LF ∉ patched_effect_state.
Proof. rewrite list_elem_of_In. vm_compute. intuition discriminate. Qed.

Lemma patched_state_effect_one_line : LF ∉ patched_state_effect.
Proof. rewrite list_elem_of_In. vm_compute. intuition discriminate. Qed.

(** C1. A readable and writable file that holds exactly
    [import { useEffect, useState } from "react";] is rewritten to
    [import { useEffect, useState }, useCallback} from "react";] and the
    process exits with status 0; the same holds with the two names in the
    other order. *)
Theorem C1_exact_insertion prog path rest w f :
  fs w !! path = Some f -> f_readable f = true -> f_writable f = true ->
  (f_text f = Some import_effect_state ->
   run (prog :: path :: rest) w
   = (0%Z,
      World (<[path := File (Some patched_effect_state) true true]> (fs w))
        (stdout w ++ [line_file path; line_fixed])
        (oplog w ++ [EvOpen path ModeR; EvRead path; EvOpen path ModeW;
                     EvWrite path patched_effect_state])
        (os_platform w)))
  /\
  (f_text f = Some import_state_effect ->
   run (prog :: path :: rest) w
   = (0%Z,
      World (<[path := File (Some patched_state_effect) true true]> (fs w))
        (stdout w ++ [line_file path; line_fixed])
        (oplog w ++ [EvOpen path ModeR; EvRead path; EvOpen path ModeW;
                     EvWrite path patched_state_effect])
        (os_platform w))).
Proof.
  intros Hf Hr Hw. split; intros Ht; rewrite run_main.
  - assert (Hne : step1 (universal_newlines import_effect_state)
                  <> universal_newlines import_effect_state)
      by (rewrite step1_effect_state; by vm_compute).
    rewrite (main_patched prog path rest w f _ Hf Hr Ht Hne Hw).
    rewrite step1_effect_state.
    by rewrite (newlines_out_one_line _ _ patched_effect_state_one_line).
  - assert (Hne : step1 (universal_newlines import_state_effect)
                  <> universal_newlines import_state_effect)
      by (rewrite step1_state_effect; by vm_compute).
    rewrite (main_patched prog path rest w f _ Hf Hr Ht Hne Hw).
    rewrite step1_state_effect.
    by rewrite (newlines_out_one_line _ _ patched_state_effect_one_line).
Qed.

Lemma C1_exact_insertion_witness :
  run [demo_prog; demo_path]
    (demo_world Posix (File (Some import_effect_state) true true))
  = (0%Z,
     World {[ demo_path := File (Some patched_effect_state) true true ]}
       [line_file demo_path; line_fixed]
       [EvOpen demo_path ModeR; EvRead demo_path; EvOpen demo_path ModeW;
        EvWrite demo_path patched_effect_state]
       Posix)
  /\
  run [demo_prog; demo_path]
    (demo_world Windows (File (Some import_state_effect) true true))
  = (0%Z,
     World {[ demo_path := File (Some patched_state_effect) true true ]}
       [line_file demo_path; line_fixed]
       [EvOpen demo_path ModeR; EvRead demo_path; EvOpen demo_path ModeW;
        EvWrite demo_path patched_state_effect]
       Windows).
Proof.
  split.
  - rewrite (proj1 (C1_exact_insertion demo_prog demo_path []
                      (demo_world Posix
                         (File (Some import_effect_state) true true))
                      (File (Some import_effect_state) true true)
                      (lookup_singleton_eq _ _) eq_refl eq_refl) eq_refl).
    unfold demo_world; simpl. by rewrite insert_singleton_eq.
  - rewrite (proj2 (C1_exact_insertion demo_prog demo_path []
                      (demo_world Windows
                         (File (Some import_state_effect) true true))
                      (File (Some import_state_effect) true true)
                      (lookup_singleton_eq _ _) eq_refl eq_refl) eq_refl).
    unfold demo_world; simpl. by rewrite insert_singleton_eq.
Defined.

(** C3. When the file content contains [useCallback] anywhere, nothing is
    inserted: the file system is left as it was, no write is attempted, the
    script reports no change and the process exits with status 1. *)
Theorem C3_already_present prog path rest w f d :
  fs w !! path = Some f -> f_readable f = true -> f_text f = Some d ->
  contains useCallback d = true ->
  run (prog :: path :: rest) w
  = (1%Z,
     World (fs w) (stdout w ++ [line_file path; line_unchanged])
       (oplog w ++ [EvOpen path ModeR; EvRead path]) (os_platform w)).
Proof.
  intros Hf Hr Ht Hc. rewrite run_main.
  rewrite (main_unchanged prog path rest w f d); try done.
  by apply step1_present, universal_newlines_contains.
Qed.

Lemma C3_already_present_witness :
  run [demo_prog; demo_path]
    (demo_world Posix
       (File (Some (py "// TODO useCallback" ++ [LF] ++ import_effect_state))
          true true))
  = (1%Z,
     World {[ demo_path :=
                File (Some (py "// TODO useCallback" ++ [LF]
                              ++ import_effect_state)) true true ]}
       [line_file demo_path; line_unchanged]
       [EvOpen demo_path ModeR; EvRead demo_path] Posix).
Proof.
  by rewrite (C3_already_present demo_prog demo_path []
                (demo_world Posix
                   (File (Some (py "// TODO useCallback" ++ [LF]
                                  ++ import_effect_state)) true true))
                (File (Some (py "// TODO useCallback" ++ [LF]
                               ++ import_effect_state)) true true) _
                (lookup_singleton_eq _ _) eq_refl eq_refl eq_refl).
Defined.

(** C6. When the content read matches neither import pattern (whether or
    not it mentions [useCallback]), the file system is left as it was, the
    script reports that no change was needed and the process exits with
    status 1. *)
Theorem C6_no_match_no_change prog path rest w f d :
  fs w !! path = Some f -> f_readable f = true -> f_text f = Some d ->
  re_search pattern1 (universal_newlines d) = false ->
  re_search pattern2 (universal_newlines d) = false ->
  run (prog :: path :: rest) w
  = (1%Z,
     World (fs w) (stdout w ++ [line_file path; line_unchanged])
       (oplog w ++ [EvOpen path ModeR; EvRead path]) (os_platform w)).
Proof.
  intros Hf Hr Ht H1 H2. rewrite run_main.
  rewrite (main_unchanged prog path rest w f d); try done.
  by apply step1_no_match.
Qed.

Lemma C6_no_match_no_change_witness :
  run [demo_prog; demo_path]
    (demo_world Posix
       (File (Some (py "import React from 'react';" ++ [CR; LF])) true true))
  = (1%Z,
     World {[ demo_path :=
                File (Some (py "import React from 'react';" ++ [CR; LF]))
                  true true ]}
       [line_file demo_path; line_unchanged]
       [EvOpen demo_path ModeR; EvRead demo_path] Posix).
Proof.
  by rewrite (C6_no_match_no_change demo_prog demo_path []
                (demo_world Posix
                   (File (Some (py "import React from 'react';" ++ [CR; LF]))
                      true true))
                (File (Some (py "import React from 'react';" ++ [CR; LF]))
                   true true) _
                (lookup_singleton_eq _ _) eq_refl eq_refl eq_refl eq_refl).
Defined.

(** C7. With no file argument the script prints the usage line on standard
    output and exits with status 1; it attempts no file operation. *)
Theorem C7_usage argv w :
  (length argv < 2)%nat ->
  run argv w
  = (1%Z, World (fs w) (stdout w ++ [usage]) (oplog w) (os_platform w)).
Proof. intros H. by rewrite run_main, main_usage. Qed.

Lemma C7_usage_witness :
  run [demo_prog] (demo_world Posix (File (Some import_effect_state) true true))
  = (1%Z,
     World {[ demo_path := File (Some import_effect_state) true true ]}
       [usage] [] Posix).
Proof.
  rewrite (C7_usage [demo_prog] _ (le_n 2)). done.
Defined.

Ltac file_cases path w :=
  destruct (fs w !! path) as [f|] eqn:Hf;
    [ destruct (f_readable f) eqn:Hr;
      [ destruct (f_text f) as [d|] eqn:Ht;
        [ destruct (decide (step1 (universal_newlines d)
                            = universal_newlines d)) as [Hs|Hs];
          [ | destruct (f_writable f) eqn:Hw ]
        | ]
      | ]
    | ].

(** C2. Running the script a second time leaves every file as the first run
    left it, and the second run exits with status 1: when the first run
    inserted something, the text it wrote contains [useCallback], so step 1
    does nothing the second time. *)
Theorem C2_idempotent argv w :
  (forall c, step1 c <> c -> contains useCallback (step1 c) = true) /\
  (forall c, step1 (step1 c) = step1 c) /\
  fs (run argv (run argv w).2).2 = fs (run argv w).2 /\
  (run argv (run argv w).2).1 = 1%Z.
Proof.
  split; [apply step1_changed_present|]. split; [apply step1_idempotent|].
  destruct argv as [|prog [|path rest]].
  - rewrite (run_main [] (run [] w).2), main_usage by (simpl; lia).
    by rewrite run_main, main_usage by (simpl; lia).
  - rewrite (run_main [prog] (run [prog] w).2), main_usage by (simpl; lia).
    by rewrite run_main, main_usage by (simpl; lia).
  - rewrite (run_main _ (run _ w).2), (run_main _ w).
    file_cases path w.
    + rewrite (main_unchanged prog path rest w f d) by done. cbn [fst snd].
      by rewrite (main_unchanged prog path rest _ f d) by done.
    + rewrite (main_patched prog path rest w f d) by done. cbn [fst snd].
      erewrite (main_unchanged prog path rest _ _ _).
      * done.
      * cbn [fs]. apply lookup_insert_eq.
      * done.
      * done.
      * cbn [os_platform f_text]. rewrite reread_patched.
        apply step1_idempotent.
    + rewrite (main_unwritable prog path rest w f d) by done. cbn [fst snd].
      by rewrite (main_unwritable prog path rest _ f d) by done.
    + rewrite (main_undecodable prog path rest w f) by done. cbn [fst snd].
      by rewrite (main_undecodable prog path rest _ f) by done.
    + rewrite (main_unreadable prog path rest w f) by done. cbn [fst snd].
      by rewrite (main_unreadable prog path rest _ f) by done.
    + rewrite (main_missing prog path rest w) by done. cbn [fst snd].
      by rewrite (main_missing prog path rest _) by done.
Qed.

(** C4. A run writes the file at most once; it opens it for writing or
    writes it only when it read a content that step 1 changes; and a run
    without such an operation leaves the file system as it was. *)
Theorem C4_written_at_most_once argv w :
  exists evs,
    oplog (run argv w).2 = oplog w ++ evs /\
    (length (List.filter is_write evs) <= 1)%nat /\
    (existsb modifies evs = true -> content_differs argv w) /\
    (existsb modifies evs = false -> fs (run argv w).2 = fs w).
Proof.
  rewrite run_main. destruct argv as [|prog [|path rest]].
  - exists []. rewrite main_usage by (simpl; lia). simpl.
    rewrite app_nil_r. repeat split; (done || lia).
  - exists []. rewrite main_usage by (simpl; lia). simpl.
    rewrite app_nil_r. repeat split; (done || lia).
  - file_cases path w.
    + rewrite (main_unchanged prog path rest w f d) by done.
      eexists. split; [done|]. simpl. repeat split; (done || lia).
    + rewrite (main_patched prog path rest w f d) by done.
      eexists. split; [done|]. simpl. repeat split; try (done || lia).
      intros _. by exists path, f, d.
    + rewrite (main_unwritable prog path rest w f d) by done.
      eexists. split; [done|]. simpl. repeat split; try (done || lia).
      intros _. by exists path, f, d.
    + rewrite (main_undecodable prog path rest w f) by done.
      eexists. split; [done|]. simpl. repeat split; (done || lia).
    + rewrite (main_unreadable prog path rest w f) by done.
      eexists. split; [done|]. simpl. repeat split; (done || lia).
    + rewrite (main_missing prog path rest w) by done.
      eexists. split; [done|]. simpl. repeat split; (done || lia).
Qed.



(** C8. When the file cannot be opened or read, the exception reaches the
    top of the script uncaught (it is not [SystemExit]) and the process ends
    with status 1; the open (and the read, if the open succeeded) was
    attempted once, nothing was printed and no file was changed. *)
Theorem C8_read_failure prog path rest w :
  read_fails w path ->
  exists e evs,
    main (prog :: path :: rest) w
    = (Raise e,
       World (fs w) (stdout w) (oplog w ++ evs) (os_platform w)) /\
    (forall code, e <> SystemExit code) /\
    (evs = [EvOpen path ModeR] \/ evs = [EvOpen path ModeR; EvRead path]) /\
    (run (prog :: path :: rest) w).1 = 1%Z /\
    (run (prog :: path :: rest) w).1 <> 0%Z.
Proof.
  unfold read_fails. intros H. rewrite run_main.
  destruct (fs w !! path) as [f|] eqn:Hf.
  - destruct (f_readable f) eqn:Hr.
    + destruct H as [?|Ht]; [done|].
      rewrite (main_undecodable prog path rest w f) by done.
      exists UnicodeDecodeError. eexists. split; [done|].
      repeat split; try done. by right.
    + rewrite (main_unreadable prog path rest w f) by done.
      exists PermissionError. eexists. split; [done|].
      repeat split; try done. by left.
  - rewrite (main_missing prog path rest w) by done.
    exists FileNotFoundError. eexists. split; [done|].
    repeat split; try done. by left.
Qed.

Lemma C8_read_failure_witness :
  exists e evs,
    main [demo_prog; py "Missing.tsx"]
      (demo_world Posix (File (Some import_effect_state) true true))
    = (Raise e,
       World {[ demo_path := File (Some import_effect_state) true true ]}
         [] ([] ++ evs) Posix) /\
    (forall code, e <> SystemExit code) /\
    (evs = [EvOpen (py "Missing.tsx") ModeR] \/
     evs = [EvOpen (py "Missing.tsx") ModeR; EvRead (py "Missing.tsx")]) /\
    (run [demo_prog; py "Missing.tsx"]
       (demo_world Posix (File (Some import_effect_state) true true))).1
    = 1%Z /\
    (run [demo_prog; py "Missing.tsx"]
       (demo_world Posix (File (Some import_effect_state) true true))).1
    <> 0%Z.
Proof.
  apply (C8_read_failure demo_prog (py "Missing.tsx") []
           (demo_world Posix (File (Some import_effect_state) true true))).
  unfold read_fails, demo_world; cbn [fs].
  rewrite lookup_singleton_ne; [exact I|by vm_compute].
Defined.

Lemma pattern1_matches ws1 ws2 ws3 ws4 (rest : str) :
  ws1 <> [] -> spaces ws1 -> spaces ws2 -> spaces ws3 -> spaces ws4 ->
  re_match pattern1 (shape1 ws1 ws2 ws3 ws4 ++ rest)
  = Some (length (shape1 ws1 ws2 ws3 ws4)).
Proof.
  intros Hne H1 H2 H3 H4. unfold shape1. rewrite <- !app_assoc.
  etrans.
  { apply (import_pattern_matches (py "useEffect,") (py "useState"));
      done. }
  f_equal. rewrite !length_app. simpl. lia.
Qed.

Lemma pattern2_matches ws1 ws2 ws3 ws4 (rest : str) :
  ws1 <> [] -> spaces ws1 -> spaces ws2 -> spaces ws3 -> spaces ws4 ->
  re_match pattern2 (shape2 ws1 ws2 ws3 ws4 ++ rest)
  = Some (length (shape2 ws1 ws2 ws3 ws4)).
Proof.
  intros Hne H1 H2 H3 H4. unfold shape2. rewrite <- !app_assoc.
  etrans.
  { apply (import_pattern_matches (py "useState,") (py "useEffect"));
      done. }
  f_equal. rewrite !length_app. simpl. lia.
Qed.

Lemma pattern1_comma ws1 ws2 b ws3 ws4 (rest : str) :
  spaces ws1 -> spaces ws2 -> b <> [] -> spaces b ->
  re_match pattern1 (spaced1 ws1 ws2 b ws3 ws4 ++ rest) = None.
Proof.
  intros H1 H2 Hb Hs. unfold spaced1. rewrite <- !app_assoc.
  by apply (import_pattern_comma (py "useEffect")
              ([Star Space] ++ lit "useState" ++ [Star Space] ++ lit "}")).
Qed.

Lemma pattern2_comma ws1 ws2 b ws3 ws4 (rest : str) :
  spaces ws1 -> spaces ws2 -> b <> [] -> spaces b ->
  re_match pattern2 (spaced2 ws1 ws2 b ws3 ws4 ++ rest) = None.
Proof.
  intros H1 H2 Hb Hs. unfold spaced2. rewrite <- !app_assoc.
  by apply (import_pattern_comma (py "useState")
              ([Star Space] ++ lit "useEffect" ++ [Star Space] ++ lit "}")).
Qed.

Lemma shape1_nonempty ws1 ws2 ws3 ws4 : shape1 ws1 ws2 ws3 ws4 <> [].
Proof. done. Qed.

Lemma shape2_nonempty ws1 ws2 ws3 ws4 : shape2 ws1 ws2 ws3 ws4 <> [].
Proof. done. Qed.

(** C9 as stated fails on a file with [\r\n] line ends: the file that
    holds [import { useEffect, useState }\r\n] is rewritten, on a POSIX
    system, to [import { useEffect, useState }, useCallback}\n]; the
    carriage return, which lies outside the matched import, is gone. *)
Lemma C9_counterexample :
  exists after,
    fs (run [demo_prog; demo_path]
          (demo_world Posix (File (Some crlf_import) true true))).2
      !! demo_path
    = Some (File (Some after) true true) /\
    after = py "import { useEffect, useState }, useCallback}" ++ [LF] /\
    ~ only_imports_patched crlf_import after.
Proof.
  eexists. split; [by vm_compute|]. split; [done|].
  assert (Hcr : CR ∈ crlf_import).
  { rewrite list_elem_of_In. vm_compute. tauto. }
  intros [E|(mid & P1 & P2)].
  - vm_compute in E. discriminate E.
  - apply (patched_elem_of _ _ _ _ _ P1) in Hcr.
    apply (patched_elem_of _ _ _ _ _ P2) in Hcr.
    rewrite list_elem_of_In in Hcr. vm_compute in Hcr. intuition discriminate.
Qed.

(** C9, amended. Step 1 is the only transformation: for every content it
    either returns the content itself or splices [, useCallback}] in behind
    the matches of pattern 1 and then of pattern 2, every character of the
    content read staying in place. A run leaves the file system as it was,
    or replaces the text of the file by the patched content that was read
    in text mode (with [\r\n] and [\r] read as [\n]) and is written with
    [\n] as [os.linesep]. The list [patterns] of step 2 is never used. *)
Theorem C9_only_import_insertion argv w :
  (forall c, only_imports_patched c (step1 c)) /\
  (fs (run argv w).2 = fs w \/
   exists path f d,
     argv !! 1%nat = Some path /\ fs w !! path = Some f /\
     f_text f = Some d /\
     fs (run argv w).2
     = <[path := File (Some (newlines_out (os_platform w)
                               (step1 (universal_newlines d)))) true true]>
         (fs w)).
Proof.
  split; [apply step1_only_imports|].
  rewrite run_main. destruct argv as [|prog [|path rest]].
  - left. by rewrite main_usage by (simpl; lia).
  - left. by rewrite main_usage by (simpl; lia).
  - file_cases path w.
    + left. by rewrite (main_unchanged prog path rest w f d) by done.
    + right. exists path, f, d.
      by rewrite (main_patched prog path rest w f d) by done.
    + left. by rewrite (main_unwritable prog path rest w f d) by done.
    + left. by rewrite (main_undecodable prog path rest w f) by done.
    + left. by rewrite (main_unreadable prog path rest w f) by done.
    + left. by rewrite (main_missing prog path rest w) by done.
Qed.

End Claims.

(** * Further properties of the script *)

(** ** What the two patterns match, exactly *)

Section MatchInversion.

Implicit Types (r : regex) (s ws l la lb : str) (n : nat).

Lemma re_match_lit_inv l r s n :
  re_match (List.map (fun c => One (Chr c)) l ++ r) s = Some n ->
  exists s' m, s = l ++ s' /\ re_match r s' = Some m /\ n = (length l + m)%nat.
Proof.
  revert s n; induction l as [|c l IH]; intros s n; simpl.
  - intros H. by exists s, n.
  - destruct s as [|c' s]; [done|].
    destruct (N.eqb_spec c c') as [->|]; [|done].
    destruct (re_match (List.map (fun c => One (Chr c)) l ++ r) s)
      as [j|] eqn:E; [|done].
    simpl. intros [= <-].
    apply IH in E as (s' & m & -> & Hm & ->). by exists s', m.
Qed.

Lemma greedy_space_inv (k : str -> option nat) s n :
  greedy Space k s = Some n ->
  exists ws s' m,
    s = ws ++ s' /\ spaces ws /\ k s' = Some m /\ n = (length ws + m)%nat.
Proof.
  revert n; induction s as [|c s IH]; intros n; simpl.
  - intros H. exists [], [], n. by repeat split; try constructor.
  - destruct (is_space c) eqn:Hc.
    + destruct (greedy Space k s) as [j|] eqn:E.
      * intros [= <-].
        destruct (IH j eq_refl) as (ws & s' & m & -> & Hws & Hk & ->).
        exists (c :: ws), s', m. repeat split; try done. by constructor.
      * intros H. exists [], (c :: s), n. by repeat split; try constructor.
    + intros H. exists [], (c :: s), n. by repeat split; try constructor.
Qed.

Lemma re_match_plus_inv r s n :
  re_match (Plus Space :: r) s = Some n ->
  exists ws s' m,
    ws <> [] /\ s = ws ++ s' /\ spaces ws /\ re_match r s' = Some m
    /\ n = (length ws + m)%nat.
Proof.
  simpl. destruct s as [|c s]; [done|].
  destruct (is_space c) eqn:Hc; [|done].
  destruct (greedy Space (re_match r) s) as [j|] eqn:E; [|done].
  simpl. intros [= <-].
  apply greedy_space_inv in E as (ws & s' & m & -> & Hws & Hk & ->).
  exists (c :: ws), s', m. repeat split; try done. by constructor.
Qed.

Lemma re_match_star_inv r s n :
  re_match (Star Space :: r) s = Some n ->
  exists ws s' m,
    s = ws ++ s' /\ spaces ws /\ re_match r s' = Some m
    /\ n = (length ws + m)%nat.
Proof. apply greedy_space_inv. Qed.

(** Only texts of the import shape are matched. *)
Lemma import_pattern_inv la lb s n :
  re_match
    (lit "import" ++ [Plus Space] ++ lit "{" ++ [Star Space]
       ++ List.map (fun c => One (Chr c)) la ++ [Star Space]
       ++ List.map (fun c => One (Chr c)) lb ++ [Star Space] ++ lit "}")
    s = Some n ->
  exists ws1 ws2 ws3 ws4 rest,
    ws1 <> [] /\ spaces ws1 /\ spaces ws2 /\ spaces ws3 /\ spaces ws4 /\
    s = py "import" ++ ws1 ++ py "{" ++ ws2 ++ la ++ ws3 ++ lb ++ ws4
          ++ py "}" ++ rest /\
    n = (6 + (length ws1 + (1 + (length ws2 + (length la + (length ws3
            + (length lb + (length ws4 + 1))))))))%nat.
Proof.
  unfold lit. intros H.
  apply re_match_lit_inv in H as (s1 & m1 & -> & H & ->).
  change ([Plus Space] ++ ?x) with (Plus Space :: x) in H.
  apply re_match_plus_inv in H as (ws1 & s2 & m2 & Hne & -> & H1 & H & ->).
  apply re_match_lit_inv in H as (s3 & m3 & -> & H & ->).
  change ([Star Space] ++ ?x) with (Star Space :: x) in H.
  apply re_match_star_inv in H as (ws2 & s4 & m4 & -> & H2 & H & ->).
  apply re_match_lit_inv in H as (s5 & m5 & -> & H & ->).
  change ([Star Space] ++ ?x) with (Star Space :: x) in H.
  apply re_match_star_inv in H as (ws3 & s6 & m6 & -> & H3 & H & ->).
  apply re_match_lit_inv in H as (s7 & m7 & -> & H & ->).
  change ([Star Space] ++ ?x) with (Star Space :: x) in H.
  apply re_match_star_inv in H as (ws4 & s8 & m8 & -> & H4 & H & ->).
  rewrite <- (app_nil_r (List.map _ (py "}"))) in H.
  apply re_match_lit_inv in H as (rest & m9 & -> & H & ->).
  injection H as <-.
  exists ws1, ws2, ws3, ws4, rest. repeat split; done.
Qed.

End MatchInversion.

(** ** Step 1 and the patterns *)

Section Step1Further.

Implicit Types (c s : str) (n : nat).

(** X1. Step 1 changes a content exactly when the content does not contain
    [useCallback] and one of the two patterns matches somewhere in it. *)
Theorem X1_step1_changes_iff c :
  step1 c <> c <->
  contains useCallback c = false /\
  (re_search pattern1 c = true \/ re_search pattern2 c = true).
Proof.
  split.
  - intros Hne. split.
    + destruct (contains useCallback c) eqn:E; [|done].
      by apply step1_present in E.
    + destruct (re_search pattern1 c) eqn:S1; [by left|].
      destruct (re_search pattern2 c) eqn:S2; [by right|].
      by destruct Hne; apply step1_no_match.
  - intros [Hc Hm]. by apply step1_patches_match.
Qed.

(** X2. Pattern 1 matches at the start of a text exactly when the text
    starts with [import], a non-empty run of white space, [{], white space,
    [useEffect,], white space, [useState], white space and [}]; the match is
    that prefix. Pattern 2 is the same with the two names exchanged. *)
Theorem X2_pattern_match_iff s n :
  (re_match pattern1 s = Some n <->
   exists ws1 ws2 ws3 ws4 rest,
     ws1 <> [] /\ spaces ws1 /\ spaces ws2 /\ spaces ws3 /\ spaces ws4 /\
     s = shape1 ws1 ws2 ws3 ws4 ++ rest /\
     n = length (shape1 ws1 ws2 ws3 ws4))
  /\
  (re_match pattern2 s = Some n <->
   exists ws1 ws2 ws3 ws4 rest,
     ws1 <> [] /\ spaces ws1 /\ spaces ws2 /\ spaces ws3 /\ spaces ws4 /\
     s = shape2 ws1 ws2 ws3 ws4 ++ rest /\
     n = length (shape2 ws1 ws2 ws3 ws4)).
Proof.
  split; split.
  - intros H.
    apply (import_pattern_inv (py "useEffect,") (py "useState")) in H
      as (ws1 & ws2 & ws3 & ws4 & rest & Hne & H1 & H2 & H3 & H4 & -> & ->).
    exists ws1, ws2, ws3, ws4, rest. repeat split; try done.
    + unfold shape1. by rewrite <- !app_assoc.
    + unfold shape1. rewrite !length_app. simpl. lia.
  - intros (ws1 & ws2 & ws3 & ws4 & rest & Hne & H1 & H2 & H3 & H4 & -> & ->).
    by apply pattern1_matches.
  - intros H.
    apply (import_pattern_inv (py "useState,") (py "useEffect")) in H
      as (ws1 & ws2 & ws3 & ws4 & rest & Hne & H1 & H2 & H3 & H4 & -> & ->).
    exists ws1, ws2, ws3, ws4, rest. repeat split; try done.
    + unfold shape2. by rewrite <- !app_assoc.
    + unfold shape2. rewrite !length_app. simpl. lia.
  - intros (ws1 & ws2 & ws3 & ws4 & rest & Hne & H1 & H2 & H3 & H4 & -> & ->).
    by apply pattern2_matches.
Qed.

Lemma patched_sublist r ins s o : patched r ins s o -> s `sublist_of` o.
Proof.
  induction 1 as [|c s o _ _ IH|m s o _ _ _ IH].
  - constructor.
  - by constructor.
  - apply sublist_app; [done|]. by apply sublist_inserts_l.
Qed.

(** X9. Step 1 never removes or reorders a character: the content read is a
    subsequence of the content it returns. *)
Theorem X9_step1_keeps_characters c : c `sublist_of` step1 c.
Proof.
  destruct (step1_only_imports c) as [->|(mid & P1 & P2)]; [done|].
  etrans; [by eapply patched_sublist|by eapply patched_sublist].
Qed.

End Step1Further.

(** ** Runs *)

Section RunFurther.

Implicit Types (prog path q : str) (rest argv : list str) (w : world)
  (f : file) (d : str).

Ltac by_file_cases path w :=
  destruct (fs w !! path) as [f|] eqn:Hf;
    [ destruct (f_readable f) eqn:Hr;
      [ destruct (f_text f) as [d|] eqn:Ht;
        [ destruct (decide (step1 (universal_newlines d)
                            = universal_newlines d)) as [Hs|Hs];
          [ | destruct (f_writable f) eqn:Hw ]
        | ]
      | ]
    | ].

Lemma newlines_out_app p (a b : str) :
  newlines_out p (a ++ b) = newlines_out p a ++ newlines_out p b.
Proof.
  induction a as [|c a IH]; [done|]. simpl. by rewrite IH, <- app_assoc.
Qed.

Lemma newlines_out_contains p (s : str) :
  contains useCallback s = true ->
  contains useCallback (newlines_out p s) = true.
Proof.
  rewrite !contains_spec. intros (a & b & ->).
  exists (newlines_out p a), (newlines_out p b).
  assert (E : newlines_out p useCallback = useCallback) by (by destruct p).
  by rewrite !newlines_out_app, E.
Qed.

Lemma newlines_out_posix (s : str) : newlines_out Posix s = s.
Proof.
  induction s as [|c s IH]; [done|]. simpl.
  destruct (N.eqb_spec c LF) as [->|_]; simpl; by rewrite IH.
Qed.

Lemma line_fixed_not_file path : line_fixed <> line_file path.
Proof. done. Qed.

Lemma line_fixed_not_usage : line_fixed <> usage.
Proof. done. Qed.

Lemma line_unchanged_not_file path : line_unchanged <> line_file path.
Proof. done. Qed.

(** X3. Arguments after the file name are ignored: the run is the run on
    the first file alone. *)
Theorem X3_extra_arguments_ignored prog path rest w :
  run (prog :: path :: rest) w = run [prog; path] w.
Proof.
  rewrite !run_main. by_file_cases path w.
  - by rewrite !(main_unchanged _ path _ w f d) by done.
  - by rewrite !(main_patched _ path _ w f d) by done.
  - by rewrite !(main_unwritable _ path _ w f d) by done.
  - by rewrite !(main_undecodable _ path _ w f) by done.
  - by rewrite !(main_unreadable _ path _ w f) by done.
  - by rewrite !(main_missing _ path _ w) by done.
Qed.

(** X4. A run creates and deletes no file, leaves every file other than its
    argument as it was, and changes no file's permissions. *)
Theorem X4_run_frame argv w :
  dom (fs (run argv w).2) = dom (fs w) /\
  (forall q, argv !! 1%nat <> Some q ->
     fs (run argv w).2 !! q = fs w !! q) /\
  (forall q f f',
     fs w !! q = Some f -> fs (run argv w).2 !! q = Some f' ->
     f_readable f' = f_readable f /\ f_writable f' = f_writable f).
Proof.
  rewrite run_main. destruct argv as [|prog [|path rest]].
  - rewrite main_usage by (simpl; lia). simpl.
    repeat split; try done; congruence.
  - rewrite main_usage by (simpl; lia). simpl.
    repeat split; try done; congruence.
  - by_file_cases path w.
    + rewrite (main_unchanged prog path rest w f d) by done. simpl.
      repeat split; try done; congruence.
    + rewrite (main_patched prog path rest w f d) by done. cbn [snd fs].
      split; [|split].
      * by apply dom_insert_lookup_L.
      * intros q Hq. apply lookup_insert_ne. naive_solver.
      * intros q g g' Hg Hg'. destruct (decide (path = q)) as [<-|Hne].
        -- rewrite lookup_insert_eq in Hg'. injection Hg' as <-.
           simpl. split; congruence.
        -- rewrite lookup_insert_ne in Hg' by done. split; congruence.
    + rewrite (main_unwritable prog path rest w f d) by done. simpl.
      repeat split; try done; congruence.
    + rewrite (main_undecodable prog path rest w f) by done. simpl.
      repeat split; try done; congruence.
    + rewrite (main_unreadable prog path rest w f) by done. simpl.
      repeat split; try done; congruence.
    + rewrite (main_missing prog path rest w) by done. simpl.
      repeat split; try done; congruence.
Qed.

(** X5. When step 1 changed the content but the file cannot be opened for
    writing, the [File:] line has been printed, [PermissionError] ends the
    script uncaught with status 1, neither result line is printed and the
    file system is as before. *)
Theorem X5_write_failure prog path rest w f d :
  fs w !! path = Some f -> f_readable f = true -> f_text f = Some d ->
  step1 (universal_newlines d) <> universal_newlines d ->
  f_writable f = false ->
  main (prog :: path :: rest) w
  = (Raise PermissionError,
     World (fs w) (stdout w ++ [line_file path])
       (oplog w ++ [EvOpen path ModeR; EvRead path; EvOpen path ModeW])
       (os_platform w)) /\
  (run (prog :: path :: rest) w).1 = 1%Z.
Proof.
  intros Hf Hr Ht Hs Hw. rewrite run_main.
  by rewrite (main_unwritable prog path rest w f d) by done.
Qed.

Lemma X5_write_failure_witness :
  main [demo_prog; demo_path]
    (demo_world Posix (File (Some import_effect_state) true false))
  = (Raise PermissionError,
     World {[ demo_path := File (Some import_effect_state) true false ]}
       [line_file demo_path]
       [EvOpen demo_path ModeR; EvRead demo_path; EvOpen demo_path ModeW]
       Posix) /\
  (run [demo_prog; demo_path]
     (demo_world Posix (File (Some import_effect_state) true false))).1
  = 1%Z.
Proof.
  apply (X5_write_failure demo_prog demo_path []
           (demo_world Posix (File (Some import_effect_state) true false))
           (File (Some import_effect_state) true false) import_effect_state
           (lookup_singleton_eq _ _) eq_refl eq_refl).
  - by vm_compute.
  - done.
Defined.

(** X6. After a run with status 0 the file named by the argument holds a
    text that contains [useCallback], where the text before did not; read
    again in text mode it is the patched content of that run. *)
Theorem X6_status_0_postcondition argv w :
  (run argv w).1 = 0%Z ->
  exists path f d d',
    argv !! 1%nat = Some path /\ fs w !! path = Some f /\
    f_text f = Some d /\ contains useCallback d = false /\
    fs (run argv w).2 !! path = Some (File (Some d') true true) /\
    universal_newlines d' = step1 (universal_newlines d) /\
    contains useCallback d' = true.
Proof.
  rewrite run_main. destruct argv as [|prog [|path rest]].
  - by rewrite main_usage by (simpl; lia).
  - by rewrite main_usage by (simpl; lia).
  - by_file_cases path w.
    + by rewrite (main_unchanged prog path rest w f d) by done.
    + rewrite (main_patched prog path rest w f d) by done. intros _.
      exists path, f, d. eexists. cbn [snd fs].
      split; [done|]. split; [done|]. split; [done|]. split; [|split; [|split]].
      * destruct (contains useCallback d) eqn:E; [|done].
        apply universal_newlines_contains in E. by apply step1_present in E.
      * apply lookup_insert_eq.
      * apply reread_patched.
      * by apply newlines_out_contains, step1_changed_present.
    + by rewrite (main_unwritable prog path rest w f d) by done.
    + by rewrite (main_undecodable prog path rest w f) by done.
    + by rewrite (main_unreadable prog path rest w f) by done.
    + by rewrite (main_missing prog path rest w) by done.
Qed.

Lemma X6_status_0_postcondition_witness :
  exists path f d d',
    [demo_prog; demo_path] !! 1%nat = Some path /\
    fs (demo_world Windows (File (Some multiline_import) true true)) !! path
    = Some f /\
    f_text f = Some d /\ contains useCallback d = false /\
    fs (run [demo_prog; demo_path]
          (demo_world Windows (File (Some multiline_import) true true))).2
      !! path
    = Some (File (Some d') true true) /\
    universal_newlines d' = step1 (universal_newlines d) /\
    contains useCallback d' = true.
Proof.
  apply (X6_status_0_postcondition [demo_prog; demo_path]
           (demo_world Windows (File (Some multiline_import) true true))).
  by vm_compute.
Defined.

(** X7. On a POSIX system, for a writable file without carriage returns,
    the text of the file after the run is step 1 of the text before: the
    original bytes with [, useCallback}] spliced in behind matched imports
    and nothing else changed. *)
Theorem X7_posix_bytes_preserved prog path rest w f d :
  os_platform w = Posix -> no_cr d ->
  fs w !! path = Some f -> f_readable f = true -> f_writable f = true ->
  f_text f = Some d ->
  (exists f',
     fs (run (prog :: path :: rest) w).2 !! path = Some f' /\
     f_text f' = Some (step1 d)) /\
  only_imports_patched d (step1 d).
Proof.
  intros Hp Hd Hf Hr Hw Ht. split; [|apply step1_only_imports].
  rewrite run_main. pose proof (universal_newlines_id d Hd) as Eu.
  destruct (decide (step1 (universal_newlines d) = universal_newlines d))
    as [Hs|Hs].
  - rewrite (main_unchanged prog path rest w f d) by done. cbn [snd fs].
    exists f. split; [done|]. rewrite Eu in Hs. by rewrite Hs.
  - rewrite (main_patched prog path rest w f d) by done. cbn [snd fs].
    eexists. split; [apply lookup_insert_eq|].
    cbn [f_text]. by rewrite Hp, newlines_out_posix, Eu.
Qed.

Lemma X7_posix_bytes_preserved_witness :
  (exists f',
     fs (run [demo_prog; demo_path]
           (demo_world Posix (File (Some multiline_import) true true))).2
       !! demo_path = Some f' /\
     f_text f' = Some (step1 multiline_import)) /\
  only_imports_patched multiline_import (step1 multiline_import).
Proof.
  apply (X7_posix_bytes_preserved demo_prog demo_path []
           (demo_world Posix (File (Some multiline_import) true true))
           (File (Some multiline_import) true true) multiline_import
           eq_refl).
  - unfold no_cr. apply Forall_forall. intros x Hx ->.
    rewrite list_elem_of_In in Hx. vm_compute in Hx. intuition discriminate.
  - apply lookup_singleton_eq.
  - done.
  - done.
  - done.
Defined.

(** X8. What a run prints tells what it did: the status is 0 or 1; it is 0
    exactly when the line [Fixed imports] was printed; and when the line
    [No import changes needed] was printed the file system is as before. *)
Theorem X8_report_matches_outcome argv w :
  exists lines,
    stdout (run argv w).2 = stdout w ++ lines /\
    ((run argv w).1 = 0%Z \/ (run argv w).1 = 1%Z) /\
    ((run argv w).1 = 0%Z <-> line_fixed ∈ lines) /\
    (line_unchanged ∈ lines -> fs (run argv w).2 = fs w).
Proof.
  rewrite run_main. destruct argv as [|prog [|path rest]].
  - exists [usage]. rewrite main_usage by (simpl; lia). simpl.
    split; [done|]. split; [by right|]. split; [|done].
    split; [done|]. intros E%list_elem_of_singleton.
    by apply line_fixed_not_usage in E.
  - exists [usage]. rewrite main_usage by (simpl; lia). simpl.
    split; [done|]. split; [by right|]. split; [|done].
    split; [done|]. intros E%list_elem_of_singleton.
    by apply line_fixed_not_usage in E.
  - by_file_cases path w.
    + rewrite (main_unchanged prog path rest w f d) by done. simpl.
      eexists. split; [done|]. split; [by right|]. split; [|done].
      split; [done|]. rewrite !elem_of_cons, elem_of_nil.
      intros [E|[E|[]]]; [by apply line_fixed_not_file in E|done].
    + rewrite (main_patched prog path rest w f d) by done. simpl.
      eexists. split; [done|]. split; [by left|]. split.
      * split; [|done]. intros _. rewrite !elem_of_cons. auto.
      * rewrite !elem_of_cons, elem_of_nil.
        intros [E|[E|[]]]; [by apply line_unchanged_not_file in E|done].
    + rewrite (main_unwritable prog path rest w f d) by done. simpl.
      eexists. split; [done|]. split; [by right|]. split; [|done].
      split; [done|]. rewrite !elem_of_cons, elem_of_nil.
      intros [E|[]]. by apply line_fixed_not_file in E.
    + rewrite (main_undecodable prog path rest w f) by done. simpl.
      exists []. rewrite app_nil_r. split; [done|]. split; [by right|].
      split; [|done]. split; [done|]. by intros ?%elem_of_nil.
    + rewrite (main_unreadable prog path rest w f) by done. simpl.
      exists []. rewrite app_nil_r. split; [done|]. split; [by right|].
      split; [|done]. split; [done|]. by intros ?%elem_of_nil.
    + rewrite (main_missing prog path rest w) by done. simpl.
      exists []. rewrite app_nil_r. split; [done|]. split; [by right|].
      split; [|done]. split; [done|]. by intros ?%elem_of_nil.
Qed.

(** X10. On a POSIX system a run with status 0 leaves no carriage return in
    the file it rewrote: every [\r\n] and lone [\r] of the original has
    become [\n]. *)
Theorem X10_posix_rewrite_normalises argv w :
  os_platform w = Posix -> (run argv w).1 = 0%Z ->
  exists path d',
    argv !! 1%nat = Some path /\
    fs (run argv w).2 !! path = Some (File (Some d') true true) /\
    no_cr d'.
Proof.
  intros Hp. rewrite run_main. destruct argv as [|prog [|path rest]].
  - by rewrite main_usage by (simpl; lia).
  - by rewrite main_usage by (simpl; lia).
  - by_file_cases path w.
    + by rewrite (main_unchanged prog path rest w f d) by done.
    + rewrite (main_patched prog path rest w f d) by done. intros _.
      exists path. eexists. cbn [snd fs].
      split; [done|]. split; [apply lookup_insert_eq|].
      rewrite Hp, newlines_out_posix.
      apply step1_no_cr, universal_newlines_no_cr.
    + by rewrite (main_unwritable prog path rest w f d) by done.
    + by rewrite (main_undecodable prog path rest w f) by done.
    + by rewrite (main_unreadable prog path rest w f) by done.
    + by rewrite (main_missing prog path rest w) by done.
Qed.

Lemma X10_posix_rewrite_normalises_witness :
  exists path d',
    [demo_prog; demo_path] !! 1%nat = Some path /\
    fs (run [demo_prog; demo_path]
          (demo_world Posix (File (Some crlf_import) true true))).2 !! path
    = Some (File (Some d') true true) /\
    no_cr d'.
Proof.
  apply (X10_posix_rewrite_normalises [demo_prog; demo_path]
           (demo_world Posix (File (Some crlf_import) true true)) eq_refl).
  by vm_compute.
Defined.

End RunFurther.

(** ** Every occurrence is rewritten *)

Section Occurrences.

Variables (r : regex) (h : N).

Hypothesis r_starts : starts_with_char r.
Hypothesis r_head : forall c (s : str), c <> h -> re_match r (c :: s) = None.
Hypothesis r_local :
  forall (s : str) n, re_match r s = Some n ->
    forall rest : str, re_match r (take n s ++ rest) = Some n.
Hypothesis r_tail :
  forall (s : str) n, re_match r s = Some n ->
    Forall (fun c => c <> h) (tail (take n s)).

Implicit Types (x s y B : str) (t : template).

Lemma re_match_prefix_none x s :
  re_match r (x ++ s) = None -> re_match r x = None.
Proof.
  intros H. destruct (re_match r x) as [n|] eqn:E; [|done].
  pose proof (r_local _ _ E (drop n x ++ s)) as E'.
  rewrite app_assoc, take_drop in E'. congruence.
Qed.

(** A text can be cut in front of any character [h]: no match extends
    across the cut. *)
Lemma re_sub_app_at_head t x s :
  re_sub r t (x ++ h :: s) = re_sub r t x ++ re_sub r t (h :: s).
Proof.
  induction x as [x IH] using (induction_ltof1 _ (@length N)).
  unfold ltof in IH. destruct x as [|c x].
  - by rewrite re_sub_nil.
  - rewrite <- app_comm_cons.
    destruct (re_match r (c :: x ++ h :: s)) as [[|k]|] eqn:E.
    + by apply re_match_nonempty in E.
    + assert (Hk : (k <= length x)%nat).
      { destruct (decide (k <= length x)%nat) as [|Hgt]; [done|]. exfalso.
        pose proof (r_tail _ _ E) as Ht. cbn [take tail] in Ht.
        rewrite take_app_ge in Ht by lia.
        destruct (k - length x)%nat as [|j] eqn:Ej; [lia|].
        cbn [take] in Ht. apply Forall_app in Ht as [_ Ht].
        by apply Forall_cons in Ht as [? _]. }
      pose proof (r_local _ _ E (drop k x)) as E'.
      cbn [take] in E'. rewrite take_app_le in E' by done.
      rewrite <- app_comm_cons, take_drop in E'.
      rewrite (re_sub_match r t c (x ++ h :: s) k E).
      rewrite (re_sub_match r t c x k E').
      cbn [take drop]. rewrite take_app_le, drop_app_le by done.
      rewrite IH by (rewrite length_drop; simpl; lia).
      by rewrite <- app_assoc.
    + rewrite (re_sub_nomatch r t c _ E).
      change (c :: x ++ h :: s) with ((c :: x) ++ h :: s) in E.
      apply re_match_prefix_none in E.
      rewrite (re_sub_nomatch r t c _ E).
      by rewrite IH by (simpl; lia).
Qed.

Lemma re_sub_skip_chars t B y :
  Forall (fun c => c <> h) B -> re_sub r t (B ++ y) = B ++ re_sub r t y.
Proof.
  induction 1 as [|c B Hc _ IH]; [done|].
  rewrite <- !app_comm_cons, re_sub_nomatch by (by apply r_head).
  by rewrite IH.
Qed.

(** A block that the pattern does not match at its start and that holds
    no further [h] is copied. *)
Lemma re_sub_inert_block t c B y :
  re_match r (c :: B ++ y) = None -> Forall (fun c => c <> h) B ->
  re_sub r t (c :: B ++ y) = c :: B ++ re_sub r t y.
Proof.
  intros H0 HB. by rewrite re_sub_nomatch, re_sub_skip_chars.
Qed.

End Occurrences.

Section PatternOccurrences.

Implicit Types (s ws a b rest : str) (n : nat).

Lemma contains_app_l needle a s :
  contains needle a = true -> contains needle (a ++ s) = true.
Proof.
  rewrite !contains_spec. intros (x & y & ->).
  exists x, (y ++ s). by rewrite <- !app_assoc.
Qed.

Lemma spaces_no_i ws : spaces ws -> Forall (fun c => c <> 105) ws.
Proof.
  intros H. eapply Forall_impl; [exact H|].
  intros c Hc ->. by vm_compute in Hc.
Qed.

Lemma pattern1_head c s : c <> 105 -> re_match pattern1 (c :: s) = None.
Proof.
  intros Hc. change pattern1 with (One (Chr 105) :: tail pattern1).
  cbn [re_match atom_ok]. apply not_eq_sym, N.eqb_neq in Hc. by rewrite Hc.
Qed.

Lemma pattern2_head c s : c <> 105 -> re_match pattern2 (c :: s) = None.
Proof.
  intros Hc. change pattern2 with (One (Chr 105) :: tail pattern2).
  cbn [re_match atom_ok]. apply not_eq_sym, N.eqb_neq in Hc. by rewrite Hc.
Qed.

Lemma pattern1_shape s n :
  re_match pattern1 s = Some n ->
  exists ws1 ws2 ws3 ws4 rest,
    ws1 <> [] /\ spaces ws1 /\ spaces ws2 /\ spaces ws3 /\ spaces ws4 /\
    s = shape1 ws1 ws2 ws3 ws4 ++ rest /\ n = length (shape1 ws1 ws2 ws3 ws4).
Proof.
  intros H.
  apply (import_pattern_inv (py "useEffect,") (py "useState")) in H
    as (ws1 & ws2 & ws3 & ws4 & rest & Hne & H1 & H2 & H3 & H4 & -> & ->).
  exists ws1, ws2, ws3, ws4, rest. repeat split; try done.
  - unfold shape1. by rewrite <- !app_assoc.
  - unfold shape1. rewrite !length_app. simpl. lia.
Qed.

Lemma pattern2_shape s n :
  re_match pattern2 s = Some n ->
  exists ws1 ws2 ws3 ws4 rest,
    ws1 <> [] /\ spaces ws1 /\ spaces ws2 /\ spaces ws3 /\ spaces ws4 /\
    s = shape2 ws1 ws2 ws3 ws4 ++ rest /\ n = length (shape2 ws1 ws2 ws3 ws4).
Proof.
  intros H.
  apply (import_pattern_inv (py "useState,") (py "useEffect")) in H
    as (ws1 & ws2 & ws3 & ws4 & rest & Hne & H1 & H2 & H3 & H4 & -> & ->).
  exists ws1, ws2, ws3, ws4, rest. repeat split; try done.
  - unfold shape2. by rewrite <- !app_assoc.
  - unfold shape2. rewrite !length_app. simpl. lia.
Qed.

Lemma pattern1_local s n :
  re_match pattern1 s = Some n ->
  forall rest, re_match pattern1 (take n s ++ rest) = Some n.
Proof.
  intros (ws1 & ws2 & ws3 & ws4 & r0 & Hne & H1 & H2 & H3 & H4 & -> & ->)
    %pattern1_shape rest.
  rewrite take_app_length. by apply pattern1_matches.
Qed.

Lemma pattern2_local s n :
  re_match pattern2 s = Some n ->
  forall rest, re_match pattern2 (take n s ++ rest) = Some n.
Proof.
  intros (ws1 & ws2 & ws3 & ws4 & r0 & Hne & H1 & H2 & H3 & H4 & -> & ->)
    %pattern2_shape rest.
  rewrite take_app_length. by apply pattern2_matches.
Qed.

Lemma shape1_tail ws1 ws2 ws3 ws4 :
  spaces ws1 -> spaces ws2 -> spaces ws3 -> spaces ws4 ->
  Forall (fun c => c <> 105) (tail (shape1 ws1 ws2 ws3 ws4)).
Proof.
  intros H1%spaces_no_i H2%spaces_no_i H3%spaces_no_i H4%spaces_no_i.
  change (tail (shape1 ws1 ws2 ws3 ws4))
    with (py "mport" ++ ws1 ++ py "{" ++ ws2 ++ py "useEffect," ++ ws3
            ++ py "useState" ++ ws4 ++ py "}").
  rewrite !Forall_app. repeat split; try done; by repeat constructor.
Qed.

Lemma shape2_tail ws1 ws2 ws3 ws4 :
  spaces ws1 -> spaces ws2 -> spaces ws3 -> spaces ws4 ->
  Forall (fun c => c <> 105) (tail (shape2 ws1 ws2 ws3 ws4)).
Proof.
  intros H1%spaces_no_i H2%spaces_no_i H3%spaces_no_i H4%spaces_no_i.
  change (tail (shape2 ws1 ws2 ws3 ws4))
    with (py "mport" ++ ws1 ++ py "{" ++ ws2 ++ py "useState," ++ ws3
            ++ py "useEffect" ++ ws4 ++ py "}").
  rewrite !Forall_app. repeat split; try done; by repeat constructor.
Qed.

Lemma pattern1_tail s n :
  re_match pattern1 s = Some n ->
  Forall (fun c => c <> 105) (tail (take n s)).
Proof.
  intros (ws1 & ws2 & ws3 & ws4 & r0 & Hne & H1 & H2 & H3 & H4 & -> & ->)
    %pattern1_shape.
  rewrite take_app_length. by apply shape1_tail.
Qed.

Lemma pattern2_tail s n :
  re_match pattern2 s = Some n ->
  Forall (fun c => c <> 105) (tail (take n s)).
Proof.
  intros (ws1 & ws2 & ws3 & ws4 & r0 & Hne & H1 & H2 & H3 & H4 & -> & ->)
    %pattern2_shape.
  rewrite take_app_length. by apply shape2_tail.
Qed.

End PatternOccurrences.

Section Exclusive.

Implicit Types (s ws a b rest X : str) (R : regex).

(** A text whose names part is refused by the rest of the pattern is not
    matched, however the white space in front is divided. *)
Lemma import_pattern_mismatch x R X ws1 ws2 :
  is_space x = false -> nonspace_head X -> spaces ws1 -> spaces ws2 ->
  re_match (One (Chr x) :: R) X = None ->
  re_match
    (lit "import" ++ [Plus Space] ++ lit "{" ++ [Star Space]
       ++ One (Chr x) :: R)
    (py "import" ++ ws1 ++ py "{" ++ ws2 ++ X)
  = None.
Proof.
  intros Hx HX H1 H2 Hno. unfold lit.
  rewrite re_match_lit_app.
  change ([Plus Space] ++ ?y) with (Plus Space :: y).
  assert (Hbrace :
    greedy Space (re_match (One (Chr x) :: R)) (ws2 ++ X) = None).
  { apply greedy_spaces_none; [|done|].
    - intros c v Hc. by apply re_match_chr_space.
    - by rewrite greedy_stop. }
  assert (Himport : forall ws, spaces ws ->
    greedy Space
      (re_match (List.map (fun c => One (Chr c)) (py "{") ++ [Star Space]
         ++ One (Chr x) :: R))
      (ws ++ py "{" ++ ws2 ++ X) = None).
  { intros ws Hws. apply greedy_spaces_none; [|done|].
    - intros c v Hc. by apply re_match_chr_space.
    - rewrite greedy_stop by done. rewrite re_match_lit_app.
      change ([Star Space] ++ ?y) with (Star Space :: y).
      change (re_match (Star Space :: ?y) ?z)
        with (greedy Space (re_match y) z).
      by rewrite Hbrace. }
  destruct H1 as [|c ws1 Hc H1].
  - done.
  - change ((c :: ws1) ++ ?y) with (c :: (ws1 ++ y)).
    change (re_match (Plus Space :: ?y) (c :: ?z))
      with (if is_space c then S <$> greedy Space (re_match y) z else None).
    by rewrite Hc, Himport.
Qed.

(** No text is matched by both patterns at the same place. *)
Lemma pattern2_not_shape1 ws1 ws2 ws3 ws4 rest :
  spaces ws1 -> spaces ws2 ->
  re_match pattern2 (shape1 ws1 ws2 ws3 ws4 ++ rest) = None.
Proof.
  intros H1 H2. unfold shape1. rewrite <- !app_assoc.
  by apply (import_pattern_mismatch 117
              (tail (lit "useState,") ++ [Star Space] ++ lit "useEffect"
                 ++ [Star Space] ++ lit "}")).
Qed.

Lemma pattern1_not_shape2 ws1 ws2 ws3 ws4 rest :
  spaces ws1 -> spaces ws2 ->
  re_match pattern1 (shape2 ws1 ws2 ws3 ws4 ++ rest) = None.
Proof.
  intros H1 H2. unfold shape2. rewrite <- !app_assoc.
  by apply (import_pattern_mismatch 117
              (tail (lit "useEffect,") ++ [Star Space] ++ lit "useState"
                 ++ [Star Space] ++ lit "}")).
Qed.

Lemma inserted_no_i : Forall (fun c => c <> 105) inserted.
Proof. by repeat constructor. Qed.

(** [re.sub] with pattern 1 rewrites an import of shape 1 wherever it
    stands, and treats the text before and the text behind it on their own. *)
Lemma re_sub1_occurrence a ws1 ws2 ws3 ws4 b :
  ws1 <> [] -> spaces ws1 -> spaces ws2 -> spaces ws3 -> spaces ws4 ->
  re_sub pattern1 repl (a ++ shape1 ws1 ws2 ws3 ws4 ++ b)
  = re_sub pattern1 repl a ++ shape1 ws1 ws2 ws3 ws4 ++ inserted
      ++ re_sub pattern1 repl b.
Proof.
  intros Hne H1 H2 H3 H4.
  change (shape1 ws1 ws2 ws3 ws4 ++ b)
    with (105 :: tail (shape1 ws1 ws2 ws3 ws4) ++ b).
  rewrite (re_sub_app_at_head pattern1 105 pattern1_starts
             pattern1_local pattern1_tail).
  f_equal.
  change (105 :: tail (shape1 ws1 ws2 ws3 ws4) ++ b)
    with (shape1 ws1 ws2 ws3 ws4 ++ b).
  rewrite (re_sub_at_match _ _ _ _ (shape1_nonempty _ _ _ _)
             (pattern1_matches ws1 ws2 ws3 ws4 b Hne H1 H2 H3 H4)).
  unfold repl. by rewrite expand_group_lit, <- app_assoc.
Qed.

Lemma re_sub2_occurrence a ws1 ws2 ws3 ws4 b :
  ws1 <> [] -> spaces ws1 -> spaces ws2 -> spaces ws3 -> spaces ws4 ->
  re_sub pattern2 repl (a ++ shape2 ws1 ws2 ws3 ws4 ++ b)
  = re_sub pattern2 repl a ++ shape2 ws1 ws2 ws3 ws4 ++ inserted
      ++ re_sub pattern2 repl b.
Proof.
  intros Hne H1 H2 H3 H4.
  change (shape2 ws1 ws2 ws3 ws4 ++ b)
    with (105 :: tail (shape2 ws1 ws2 ws3 ws4) ++ b).
  rewrite (re_sub_app_at_head pattern2 105 pattern2_starts
             pattern2_local pattern2_tail).
  f_equal.
  change (105 :: tail (shape2 ws1 ws2 ws3 ws4) ++ b)
    with (shape2 ws1 ws2 ws3 ws4 ++ b).
  rewrite (re_sub_at_match _ _ _ _ (shape2_nonempty _ _ _ _)
             (pattern2_matches ws1 ws2 ws3 ws4 b Hne H1 H2 H3 H4)).
  unfold repl. by rewrite expand_group_lit, <- app_assoc.
Qed.

(** Pattern 2 passes over a patched import of shape 1, and pattern 1 over
    an import of shape 2. *)
Lemma re_sub2_over_patched1 a ws1 ws2 ws3 ws4 b :
  spaces ws1 -> spaces ws2 -> spaces ws3 -> spaces ws4 ->
  re_sub pattern2 repl (a ++ shape1 ws1 ws2 ws3 ws4 ++ inserted ++ b)
  = re_sub pattern2 repl a ++ shape1 ws1 ws2 ws3 ws4 ++ inserted
      ++ re_sub pattern2 repl b.
Proof.
  intros H1 H2 H3 H4.
  change (shape1 ws1 ws2 ws3 ws4 ++ inserted ++ b)
    with (105 :: tail (shape1 ws1 ws2 ws3 ws4) ++ inserted ++ b).
  rewrite (re_sub_app_at_head pattern2 105 pattern2_starts
             pattern2_local pattern2_tail).
  f_equal. rewrite (app_assoc _ inserted b).
  rewrite (re_sub_inert_block pattern2 105 pattern2_head).
  - by rewrite <- app_assoc.
  - rewrite <- app_assoc.
    change (105 :: tail (shape1 ws1 ws2 ws3 ws4) ++ inserted ++ b)
      with (shape1 ws1 ws2 ws3 ws4 ++ inserted ++ b).
    by apply pattern2_not_shape1.
  - apply Forall_app. split; [by apply shape1_tail|apply inserted_no_i].
Qed.

Lemma re_sub1_over_shape2 a ws1 ws2 ws3 ws4 b :
  spaces ws1 -> spaces ws2 -> spaces ws3 -> spaces ws4 ->
  re_sub pattern1 repl (a ++ shape2 ws1 ws2 ws3 ws4 ++ b)
  = re_sub pattern1 repl a ++ shape2 ws1 ws2 ws3 ws4
      ++ re_sub pattern1 repl b.
Proof.
  intros H1 H2 H3 H4.
  change (shape2 ws1 ws2 ws3 ws4 ++ b)
    with (105 :: tail (shape2 ws1 ws2 ws3 ws4) ++ b).
  rewrite (re_sub_app_at_head pattern1 105 pattern1_starts
             pattern1_local pattern1_tail).
  f_equal.
  rewrite (re_sub_inert_block pattern1 105 pattern1_head).
  - done.
  - change (105 :: tail (shape2 ws1 ws2 ws3 ws4) ++ b)
      with (shape2 ws1 ws2 ws3 ws4 ++ b).
    by apply pattern1_not_shape2.
  - by apply shape2_tail.
Qed.

Lemma contains_split_false needle a s b :
  contains needle (a ++ s ++ b) = false ->
  contains needle a = false /\ contains needle b = false.
Proof.
  intros H. split.
  - destruct (contains needle a) eqn:E; [|done].
    by rewrite (contains_app_l _ _ (s ++ b) E) in H.
  - destruct (contains needle b) eqn:E; [|done].
    by rewrite (contains_app_r _ a _ (contains_app_r _ s _ E)) in H.
Qed.

(** Step 1 patches an import of either shape wherever it stands, and the
    text before and behind it as if each stood alone. *)
Lemma step1_occurrence1 a ws1 ws2 ws3 ws4 b :
  ws1 <> [] -> spaces ws1 -> spaces ws2 -> spaces ws3 -> spaces ws4 ->
  contains useCallback (a ++ shape1 ws1 ws2 ws3 ws4 ++ b) = false ->
  step1 (a ++ shape1 ws1 ws2 ws3 ws4 ++ b)
  = step1 a ++ shape1 ws1 ws2 ws3 ws4 ++ inserted ++ step1 b.
Proof.
  intros Hne H1 H2 H3 H4 Hc.
  destruct (contains_split_false _ _ _ _ Hc) as [Ha Hb].
  rewrite !step1_absent by done.
  rewrite re_sub1_occurrence by done.
  by rewrite re_sub2_over_patched1 by done.
Qed.

Lemma step1_occurrence2 a ws1 ws2 ws3 ws4 b :
  ws1 <> [] -> spaces ws1 -> spaces ws2 -> spaces ws3 -> spaces ws4 ->
  contains useCallback (a ++ shape2 ws1 ws2 ws3 ws4 ++ b) = false ->
  step1 (a ++ shape2 ws1 ws2 ws3 ws4 ++ b)
  = step1 a ++ shape2 ws1 ws2 ws3 ws4 ++ inserted ++ step1 b.
Proof.
  intros Hne H1 H2 H3 H4 Hc.
  destruct (contains_split_false _ _ _ _ Hc) as [Ha Hb].
  rewrite !step1_absent by done.
  rewrite re_sub1_over_shape2 by done.
  by rewrite re_sub2_occurrence by done.
Qed.

End Exclusive.

(** ** The claim on flexible white space and global substitution *)

Section GlobalClaim.

(** C10 as stated fails for white space between the first name and its
    comma: [import { useEffect , useState }] has white space only around the
    two names, yet neither pattern matches it and step 1 leaves it alone. *)
Lemma C10_counterexample :
  spaced_comma_import
  = spaced1 (py " ") (py " ") (py " ") (py " ") (py " ") /\
  spaces (py " ") /\
  contains useCallback spaced_comma_import = false /\
  re_search pattern1 spaced_comma_import = false /\
  re_search pattern2 spaced_comma_import = false /\
  step1 spaced_comma_import = spaced_comma_import.
Proof.
  repeat split; try (by vm_compute). by repeat constructor.
Qed.

(** C10, amended. The patterns accept any non-empty run of white space
    (newlines included) after [import] and any amount, none included, after
    the opening brace, after the comma and before the closing brace; the
    comma must follow the first name directly. A text of that shape is
    replaced by itself followed by [, useCallback}] and the substitution
    goes on with the rest of the text, so every occurrence is rewritten;
    in a content without [useCallback] such an import is patched wherever
    it stands. [import {useEffect,useState}], an import spread over four
    lines, and a text with three imports are evaluated as instances.
    Every occurrence: for any texts [a] and [b] around an import of the
    shape, [re.sub] returns the substituted [a], the import with
    [, useCallback}] behind it, and the substituted [b]; step 1 does the
    same with both patterns; and for every text the result of [re.sub] is
    the text with the insertion behind each leftmost non-overlapping match
    and nothing else changed. *)
Theorem C10_flexible_whitespace ws1 ws2 ws3 ws4 (rest : str) :
  ws1 <> [] -> spaces ws1 -> spaces ws2 -> spaces ws3 -> spaces ws4 ->
  re_sub pattern1 repl (shape1 ws1 ws2 ws3 ws4 ++ rest)
  = shape1 ws1 ws2 ws3 ws4 ++ inserted ++ re_sub pattern1 repl rest
  /\
  re_sub pattern2 repl (shape2 ws1 ws2 ws3 ws4 ++ rest)
  = shape2 ws1 ws2 ws3 ws4 ++ inserted ++ re_sub pattern2 repl rest
  /\
  (forall pre,
     contains useCallback (pre ++ shape1 ws1 ws2 ws3 ws4 ++ rest) = false ->
     step1 (pre ++ shape1 ws1 ws2 ws3 ws4 ++ rest)
     <> pre ++ shape1 ws1 ws2 ws3 ws4 ++ rest)
  /\
  (forall pre,
     contains useCallback (pre ++ shape2 ws1 ws2 ws3 ws4 ++ rest) = false ->
     step1 (pre ++ shape2 ws1 ws2 ws3 ws4 ++ rest)
     <> pre ++ shape2 ws1 ws2 ws3 ws4 ++ rest)
  /\
  (forall b, b <> [] -> spaces b ->
     re_match pattern1 (spaced1 ws1 ws2 b ws3 ws4 ++ rest) = None /\
     re_match pattern2 (spaced2 ws1 ws2 b ws3 ws4 ++ rest) = None)
  /\
  step1 compact_import = compact_import ++ inserted
  /\
  step1 multiline_import = multiline_import ++ inserted
  /\
  step1 (compact_import ++ [LF] ++ import_state_effect ++ [LF]
           ++ multiline_import)
  = (compact_import ++ inserted) ++ [LF] ++ patched_state_effect ++ [LF]
      ++ multiline_import ++ inserted
  /\
  (forall a b,
     re_sub pattern1 repl (a ++ shape1 ws1 ws2 ws3 ws4 ++ b)
     = re_sub pattern1 repl a ++ shape1 ws1 ws2 ws3 ws4 ++ inserted
         ++ re_sub pattern1 repl b)
  /\
  (forall a b,
     re_sub pattern2 repl (a ++ shape2 ws1 ws2 ws3 ws4 ++ b)
     = re_sub pattern2 repl a ++ shape2 ws1 ws2 ws3 ws4 ++ inserted
         ++ re_sub pattern2 repl b)
  /\
  (forall a b,
     contains useCallback (a ++ shape1 ws1 ws2 ws3 ws4 ++ b) = false ->
     step1 (a ++ shape1 ws1 ws2 ws3 ws4 ++ b)
     = step1 a ++ shape1 ws1 ws2 ws3 ws4 ++ inserted ++ step1 b)
  /\
  (forall a b,
     contains useCallback (a ++ shape2 ws1 ws2 ws3 ws4 ++ b) = false ->
     step1 (a ++ shape2 ws1 ws2 ws3 ws4 ++ b)
     = step1 a ++ shape2 ws1 ws2 ws3 ws4 ++ inserted ++ step1 b)
  /\
  (forall s, patched pattern1 inserted s (re_sub pattern1 repl s)) /\
  (forall s, patched pattern2 inserted s (re_sub pattern2 repl s)).
Proof.
  intros Hne H1 H2 H3 H4.
  pose proof (pattern1_matches ws1 ws2 ws3 ws4 rest Hne H1 H2 H3 H4) as M1.
  pose proof (pattern2_matches ws1 ws2 ws3 ws4 rest Hne H1 H2 H3 H4) as M2.
  split; [|split; [|split; [|split; [|split; [|split; [|split; [|split;
    [|split; [|split; [|split; [|split; [|split]]]]]]]]]]]].
  - rewrite (re_sub_at_match _ _ _ _ (shape1_nonempty _ _ _ _) M1).
    unfold repl. by rewrite expand_group_lit, <- app_assoc.
  - rewrite (re_sub_at_match _ _ _ _ (shape2_nonempty _ _ _ _) M2).
    unfold repl. by rewrite expand_group_lit, <- app_assoc.
  - intros pre Hc. apply step1_patches_match; [done|]. left.
    by eapply re_search_app, re_search_at_match.
  - intros pre Hc. apply step1_patches_match; [done|]. right.
    by eapply re_search_app, re_search_at_match.
  - intros b Hb Hs. split; [by apply pattern1_comma|by apply pattern2_comma].
  - by vm_compute.
  - by vm_compute.
  - by vm_compute.
  - intros a b. by apply re_sub1_occurrence.
  - intros a b. by apply re_sub2_occurrence.
  - intros a b. by apply step1_occurrence1.
  - intros a b. by apply step1_occurrence2.
  - intros s. apply re_sub_patched, pattern1_starts.
  - intros s. apply re_sub_patched, pattern2_starts.
Qed.

Lemma C10_flexible_whitespace_witness :
  re_sub pattern1 repl (shape1 [LF] [] [] [] ++ py ";")
  = shape1 [LF] [] [] [] ++ inserted ++ re_sub pattern1 repl (py ";")
  /\
  step1 (py "// hooks" ++ [LF] ++ shape1 [LF] [] [] [] ++ py ";")
  <> py "// hooks" ++ [LF] ++ shape1 [LF] [] [] [] ++ py ";".
Proof.
  pose proof (C10_flexible_whitespace [LF] [] [] [] (py ";")
                ltac:(done) ltac:(by repeat constructor)
                ltac:(constructor) ltac:(constructor) ltac:(constructor))
    as (E1 & _ & P1 & _).
  split; [exact E1|].
  apply (P1 (py "// hooks" ++ [LF])). by vm_compute.
Defined.

End GlobalClaim.
